(** * Soft actor-critic agent of mlpack: a shallow embedding of
      [methods/reinforcement_learning/sac_impl.hpp]

    The class [SAC] is a template over its collaborators (environment,
    critic network, policy network, updater, replay).  They are modelled as
    type classes; the orchestration code of the file (constructor,
    [SoftUpdate], [Update], [SelectAction], [Episode]) is translated function
    by function into state-passing definitions over a record holding the
    members of the class.

    Conventions.
    - A scalar ([double]) is any type with the operations of [Scalar]; no
      algebraic law is assumed, so every generic theorem holds for exact
      rationals and for IEEE binary64 alike.  Both instances are given.
    - An [arma::mat] is the list of its columns; a row or column vector is a
      list of scalars.  An Armadillo operation whose operands disagree in
      size raises an exception: the model returns [None].  A matrix without
      columns is taken to have no rows.
    - [size_t] counters are natural numbers (no wrap-around after 2^64
      steps).
    - The global random generator of Armadillo is the member [rng] of the
      model state; it is threaded through every collaborator that draws
      from it.
    - The member [calls] is a log of the calls the agent makes; it is not a
      member of the C++ class and no function reads it. *)

From Stdlib Require Import List ZArith QArith Lqa Lia Bool Arith PrimFloat Uint63.
Import ListNotations.
Close Scope Q_scope.
Close Scope Z_scope.
Open Scope nat_scope.

Set Implicit Arguments.

(** ** Scalars *)

Class Scalar (T : Type) : Type := {
  sofQ : Q -> T;          (* a floating literal of the source: 0.005, 0.1 *)
  sofZ : Z -> T;          (* an integer operand converted to a scalar *)
  sadd : T -> T -> T;
  ssub : T -> T -> T;
  smul : T -> T -> T;
  sneg : T -> T;
  sltb : T -> T -> bool   (* operator< *)
}.

(** Exact rationals, kept in lowest terms so that Leibniz equality is
    numeric equality on the values that arise. *)
#[export] Instance Q_Scalar : Scalar Q := {
  sofQ := Qred;
  sofZ := inject_Z;
  sadd := fun x y => Qred (Qplus x y);
  ssub := fun x y => Qred (Qminus x y);
  smul := fun x y => Qred (Qmult x y);
  sneg := fun x => Qred (Qopp x);
  sltb := fun x y => negb (Qle_bool y x)
}.

(** IEEE 754 binary64, the [double] of the source. *)
Definition double_ofZ (z : Z) : float :=
  match z with
  | Z0 => PrimFloat.zero
  | Zpos _ => PrimFloat.of_uint63 (Uint63.of_Z z)
  | Zneg _ => PrimFloat.opp (PrimFloat.of_uint63 (Uint63.of_Z (Z.opp z)))
  end.

Definition double_ofQ (q : Q) : float :=
  PrimFloat.div (double_ofZ (Qnum q)) (double_ofZ (Zpos (Qden q))).

#[export] Instance double_Scalar : Scalar float := {
  sofQ := double_ofQ;
  sofZ := double_ofZ;
  sadd := PrimFloat.add;
  ssub := PrimFloat.sub;
  smul := PrimFloat.mul;
  sneg := PrimFloat.opp;
  sltb := PrimFloat.ltb
}.

(** ** The error monad of the orchestration code *)

Notation "x <- c ;; k" := (match c with Some x => k | None => None end)
  (at level 61, c at next level, right associativity).
Notation "' p <- c ;; k" := (match c with Some p => k | None => None end)
  (at level 61, p pattern, c at next level, right associativity).

(** Outcome of a loop run with a bound on the number of iterations. *)
Inductive Outcome (A : Type) : Type :=
| Done (a : A)     (* the function returned *)
| Fault            (* an exception left the function *)
| OutOfFuel.       (* the iteration bound was reached *)
Arguments Fault {A}.
Arguments OutOfFuel {A}.

(** ** The fragment of Armadillo the file uses *)

Definition mat (T : Type) : Type := list (list T).

Section Arma.
Context {T : Type} `{Scalar T}.

Definition n_cols (m : mat T) : nat := length m.

Definition n_rows (m : mat T) : nat :=
  match m with
  | [] => 0
  | c :: _ => length c
  end.

(** [is_empty]: no element at all. *)
Definition is_empty (m : mat T) : bool :=
  forallb (fun c => match c with [] => true | _ => false end) m.

(** Element in row [i] of column [j]. *)
Definition entry (m : mat T) (i j : nat) : option T :=
  c <- nth_error m j ;; nth_error c i.

Fixpoint zipM {A B C : Type} (f : A -> B -> option C)
    (l1 : list A) (l2 : list B) : option (list C) :=
  match l1, l2 with
  | [], [] => Some []
  | a :: l1', b :: l2' =>
      c <- f a b ;; r <- zipM f l1' l2' ;; Some (c :: r)
  | _, _ => None
  end.

(** Element-wise operation on two vectors of the same length. *)
Definition zip_exact {A B C : Type} (f : A -> B -> C) :
    list A -> list B -> option (list C) :=
  zipM (fun a b => Some (f a b)).

Fixpoint mapM {A B : Type} (f : A -> option B) (l : list A) :
    option (list B) :=
  match l with
  | [] => Some []
  | a :: l' => b <- f a ;; r <- mapM f l' ;; Some (b :: r)
  end.

(** [A + B] on matrices. *)
Definition mat_add (A B : mat T) : option (mat T) :=
  zipM (zip_exact sadd) A B.

(** [k * A], a scalar times a matrix. *)
Definition scale (k : T) (A : mat T) : mat T := map (map (smul k)) A.

(** [-A]. *)
Definition mat_neg (A : mat T) : mat T := map (map sneg) A.

(** [arma::join_vert(A, B)]: column [j] of the result is column [j] of [A]
    on top of column [j] of [B]. *)
Definition join_vert (A B : mat T) : option (mat T) :=
  zipM (fun a b => Some (a ++ b)) A B.

(** Binding a matrix result to an [arma::rowvec]: one row is required. *)
Definition as_row (m : mat T) : option (list T) :=
  mapM (fun c => match c with [x] => Some x | _ => None end) m.

(** A row vector seen as a matrix. *)
Definition row_mat (r : list T) : mat T := map (fun x => [x]) r.

(** Binding a matrix result to an [arma::colvec]: one column is required. *)
Definition as_col (m : mat T) : option (list T) :=
  match m with
  | [c] => Some c
  | _ => None
  end.

(** [A.rows(0, k - 1)] for [k] of type [size_t]: [k = 0] wraps around and
    is out of bounds like any [k] above the number of rows. *)
Definition rows_0 (A : mat T) (k : nat) : option (mat T) :=
  if (1 <=? k) && (k <=? n_rows A) then Some (map (firstn k) A) else None.

(** A matrix of the size of [A] filled with [v]: [copy_size] then [fill]. *)
Definition filled_like (A : mat T) (v : T) : mat T :=
  map (map (fun _ => v)) A.

(** [std::min], which [arma::min(A, B)] applies element-wise. *)
Definition smin (a b : T) : T := if sltb b a then b else a.

(** [arma::clamp] on one element. *)
Definition clamp (lo hi x : T) : T :=
  if sltb x lo then lo else if sltb hi x then hi else x.

(** [x[0] = v] on a vector of scalars. *)
Definition set_first (v : T) (x : list T) : option (list T) :=
  match x with
  | [] => None
  | _ :: tl => Some (v :: tl)
  end.
End Arma.

(** ** Collaborators *)

(** A network object: its parameter block, which the agent reads and
    assigns through [Parameters()], and everything else it holds. *)
Record Net (T L : Type) : Type := mkNet {
  Parameters : mat T;
  layers : L
}.

Definition set_Parameters {T L : Type} (p : mat T) (n : Net T L) : Net T L :=
  {| Parameters := p; layers := layers n |}.

(** Methods of [QNetworkType] and [PolicyNetworkType].  [Predict] is
    inference; [Forward] and [Backward] may record state in the object;
    [ResetParameters] draws from the global generator. *)
Class Network (T W L : Type) : Type := {
  ResetParameters : Net T L -> W -> Net T L * W;
  Predict : Net T L -> mat T -> mat T;
  Forward : Net T L -> mat T -> Net T L * mat T;
  Backward : Net T L -> mat T -> mat T -> Net T L * mat T
}.

(** [UpdaterType]: one stateful object per instance. Under ensmallen 2 the
    state lives in the policy object built by the constructor; the calls
    are the same. *)
Class Updater (T U : Type) : Type := {
  Initialize : U -> nat -> nat -> U;
  UpdaterUpdate : U -> mat T -> T -> mat T -> U * mat T
}.

(** The member [lossFunction]; only its [Backward] is used. *)
Class Loss (T : Type) : Type := {
  LossBackward : list T -> list T -> mat T
}.

(** [arma::randu]: one draw from the global generator. *)
Class Random (T W : Type) : Type := {
  randu1 : W -> T * W
}.

(** [EnvironmentType] with its [State]; an action is the array
    [ActionType::action]. *)
Class Environment (T W E S : Type) : Type := {
  InitialSample : E -> W -> S * E * W;
  IsTerminal : E -> S -> bool;
  EnvSample : E -> W -> S -> list T -> T * S * E * W;
  Encode : S -> list T;
  DefaultState : S;
  DefaultAction : list T;
  action_size : nat       (* [ActionType::size] *)
}.

(** What [ReplayType::Sample] writes into its five output arguments. *)
Record Batch (T A : Type) : Type := mkBatch {
  sampledStates : mat T;
  sampledActions : list A;
  sampledRewards : list T;
  sampledNextStates : mat T;
  isTerminal : list Z
}.

Class Replay (T W R S : Type) : Type := {
  Store : R -> S -> list T -> T -> S -> bool -> T -> R;
  Sample : R -> W -> Batch T (list T) * R * W
}.

(** The fields of [TrainingConfig] the agent reads. *)
Record TrainingConfig (T : Type) : Type := mkConfig {
  Discount : T;
  StepSize : T;
  StepLimit : nat;
  ExplorationSteps : nat;
  TargetNetworkSyncInterval : nat
}.

(** ** The agent *)

Inductive critic : Type := Critic1 | Critic2.

Section Agent.
Variables T W QL PL U R E St : Type.
Context {ST : Scalar T} {QN : Network T W QL} {PN : Network T W PL}
        {UP : Updater T U} {LF : Loss T} {RN : Random T W}
        {EN : Environment T W E St} {RP : Replay T W R St}.

(** Calls made by the agent, in the order they are made. *)
Inductive Event : Type :=
| CallEnvSample (s : St) (a : list T) (r : T) (s' : St)
| CallStore (s : St) (a : list T) (r : T) (s' : St) (t : bool) (discount : T)
| CallUpdate (k : nat)
| CallLoss (i : critic) (prediction target : list T)
| CallCriticStep (i : critic) (stepSize : T) (gradient : mat T)
| CallActorBackward (i : critic) (input : list T) (outputGradient : mat T)
| CallPolicyStep (stepSize : T) (gradient : mat T)
| CallSoftUpdate (rho : T).

(** The members of the class.  [learningQ1Network], [policyNetwork],
    [replayMethod] and [config] are references to objects of the caller;
    the other networks are members by value. *)
Record SAC : Type := mkSAC {
  config : TrainingConfig T;
  learningQ1Network : Net T QL;
  learningQ2Network : Net T QL;
  targetQ1Network : Net T QL;
  targetQ2Network : Net T QL;
  policyNetwork : Net T PL;
  replayMethod : R;
  qNetworkUpdater : U;
  policyNetworkUpdater : U;
  environment : E;
  totalSteps : nat;
  state : St;
  action : list T;
  deterministic : bool;
  rng : W;
  calls : list Event
}.

Definition set_learningQ1Network (v : Net T QL) (st : SAC) : SAC :=
  {| config := config st;
     learningQ1Network := v;
     learningQ2Network := learningQ2Network st;
     targetQ1Network := targetQ1Network st;
     targetQ2Network := targetQ2Network st;
     policyNetwork := policyNetwork st;
     replayMethod := replayMethod st;
     qNetworkUpdater := qNetworkUpdater st;
     policyNetworkUpdater := policyNetworkUpdater st;
     environment := environment st;
     totalSteps := totalSteps st;
     state := state st;
     action := action st;
     deterministic := deterministic st;
     rng := rng st;
     calls := calls st |}.

Definition set_learningQ2Network (v : Net T QL) (st : SAC) : SAC :=
  {| config := config st;
     learningQ1Network := learningQ1Network st;
     learningQ2Network := v;
     targetQ1Network := targetQ1Network st;
     targetQ2Network := targetQ2Network st;
     policyNetwork := policyNetwork st;
     replayMethod := replayMethod st;
     qNetworkUpdater := qNetworkUpdater st;
     policyNetworkUpdater := policyNetworkUpdater st;
     environment := environment st;
     totalSteps := totalSteps st;
     state := state st;
     action := action st;
     deterministic := deterministic st;
     rng := rng st;
     calls := calls st |}.

Definition set_targetQ1Network (v : Net T QL) (st : SAC) : SAC :=
  {| config := config st;
     learningQ1Network := learningQ1Network st;
     learningQ2Network := learningQ2Network st;
     targetQ1Network := v;
     targetQ2Network := targetQ2Network st;
     policyNetwork := policyNetwork st;
     replayMethod := replayMethod st;
     qNetworkUpdater := qNetworkUpdater st;
     policyNetworkUpdater := policyNetworkUpdater st;
     environment := environment st;
     totalSteps := totalSteps st;
     state := state st;
     action := action st;
     deterministic := deterministic st;
     rng := rng st;
     calls := calls st |}.

Definition set_targetQ2Network (v : Net T QL) (st : SAC) : SAC :=
  {| config := config st;
     learningQ1Network := learningQ1Network st;
     learningQ2Network := learningQ2Network st;
     targetQ1Network := targetQ1Network st;
     targetQ2Network := v;
     policyNetwork := policyNetwork st;
     replayMethod := replayMethod st;
     qNetworkUpdater := qNetworkUpdater st;
     policyNetworkUpdater := policyNetworkUpdater st;
     environment := environment st;
     totalSteps := totalSteps st;
     state := state st;
     action := action st;
     deterministic := deterministic st;
     rng := rng st;
     calls := calls st |}.

Definition set_policyNetwork (v : Net T PL) (st : SAC) : SAC :=
  {| config := config st;
     learningQ1Network := learningQ1Network st;
     learningQ2Network := learningQ2Network st;
     targetQ1Network := targetQ1Network st;
     targetQ2Network := targetQ2Network st;
     policyNetwork := v;
     replayMethod := replayMethod st;
     qNetworkUpdater := qNetworkUpdater st;
     policyNetworkUpdater := policyNetworkUpdater st;
     environment := environment st;
     totalSteps := totalSteps st;
     state := state st;
     action := action st;
     deterministic := deterministic st;
     rng := rng st;
     calls := calls st |}.

Definition set_replayMethod (v : R) (st : SAC) : SAC :=
  {| config := config st;
     learningQ1Network := learningQ1Network st;
     learningQ2Network := learningQ2Network st;
     targetQ1Network := targetQ1Network st;
     targetQ2Network := targetQ2Network st;
     policyNetwork := policyNetwork st;
     replayMethod := v;
     qNetworkUpdater := qNetworkUpdater st;
     policyNetworkUpdater := policyNetworkUpdater st;
     environment := environment st;
     totalSteps := totalSteps st;
     state := state st;
     action := action st;
     deterministic := deterministic st;
     rng := rng st;
     calls := calls st |}.

Definition set_qNetworkUpdater (v : U) (st : SAC) : SAC :=
  {| config := config st;
     learningQ1Network := learningQ1Network st;
     learningQ2Network := learningQ2Network st;
     targetQ1Network := targetQ1Network st;
     targetQ2Network := targetQ2Network st;
     policyNetwork := policyNetwork st;
     replayMethod := replayMethod st;
     qNetworkUpdater := v;
     policyNetworkUpdater := policyNetworkUpdater st;
     environment := environment st;
     totalSteps := totalSteps st;
     state := state st;
     action := action st;
     deterministic := deterministic st;
     rng := rng st;
     calls := calls st |}.

Definition set_policyNetworkUpdater (v : U) (st : SAC) : SAC :=
  {| config := config st;
     learningQ1Network := learningQ1Network st;
     learningQ2Network := learningQ2Network st;
     targetQ1Network := targetQ1Network st;
     targetQ2Network := targetQ2Network st;
     policyNetwork := policyNetwork st;
     replayMethod := replayMethod st;
     qNetworkUpdater := qNetworkUpdater st;
     policyNetworkUpdater := v;
     environment := environment st;
     totalSteps := totalSteps st;
     state := state st;
     action := action st;
     deterministic := deterministic st;
     rng := rng st;
     calls := calls st |}.

Definition set_environment (v : E) (st : SAC) : SAC :=
  {| config := config st;
     learningQ1Network := learningQ1Network st;
     learningQ2Network := learningQ2Network st;
     targetQ1Network := targetQ1Network st;
     targetQ2Network := targetQ2Network st;
     policyNetwork := policyNetwork st;
     replayMethod := replayMethod st;
     qNetworkUpdater := qNetworkUpdater st;
     policyNetworkUpdater := policyNetworkUpdater st;
     environment := v;
     totalSteps := totalSteps st;
     state := state st;
     action := action st;
     deterministic := deterministic st;
     rng := rng st;
     calls := calls st |}.

Definition set_totalSteps (v : nat) (st : SAC) : SAC :=
  {| config := config st;
     learningQ1Network := learningQ1Network st;
     learningQ2Network := learningQ2Network st;
     targetQ1Network := targetQ1Network st;
     targetQ2Network := targetQ2Network st;
     policyNetwork := policyNetwork st;
     replayMethod := replayMethod st;
     qNetworkUpdater := qNetworkUpdater st;
     policyNetworkUpdater := policyNetworkUpdater st;
     environment := environment st;
     totalSteps := v;
     state := state st;
     action := action st;
     deterministic := deterministic st;
     rng := rng st;
     calls := calls st |}.

Definition set_state (v : St) (st : SAC) : SAC :=
  {| config := config st;
     learningQ1Network := learningQ1Network st;
     learningQ2Network := learningQ2Network st;
     targetQ1Network := targetQ1Network st;
     targetQ2Network := targetQ2Network st;
     policyNetwork := policyNetwork st;
     replayMethod := replayMethod st;
     qNetworkUpdater := qNetworkUpdater st;
     policyNetworkUpdater := policyNetworkUpdater st;
     environment := environment st;
     totalSteps := totalSteps st;
     state := v;
     action := action st;
     deterministic := deterministic st;
     rng := rng st;
     calls := calls st |}.

Definition set_action (v : list T) (st : SAC) : SAC :=
  {| config := config st;
     learningQ1Network := learningQ1Network st;
     learningQ2Network := learningQ2Network st;
     targetQ1Network := targetQ1Network st;
     targetQ2Network := targetQ2Network st;
     policyNetwork := policyNetwork st;
     replayMethod := replayMethod st;
     qNetworkUpdater := qNetworkUpdater st;
     policyNetworkUpdater := policyNetworkUpdater st;
     environment := environment st;
     totalSteps := totalSteps st;
     state := state st;
     action := v;
     deterministic := deterministic st;
     rng := rng st;
     calls := calls st |}.

Definition set_deterministic (v : bool) (st : SAC) : SAC :=
  {| config := config st;
     learningQ1Network := learningQ1Network st;
     learningQ2Network := learningQ2Network st;
     targetQ1Network := targetQ1Network st;
     targetQ2Network := targetQ2Network st;
     policyNetwork := policyNetwork st;
     replayMethod := replayMethod st;
     qNetworkUpdater := qNetworkUpdater st;
     policyNetworkUpdater := policyNetworkUpdater st;
     environment := environment st;
     totalSteps := totalSteps st;
     state := state st;
     action := action st;
     deterministic := v;
     rng := rng st;
     calls := calls st |}.

Definition set_rng (v : W) (st : SAC) : SAC :=
  {| config := config st;
     learningQ1Network := learningQ1Network st;
     learningQ2Network := learningQ2Network st;
     targetQ1Network := targetQ1Network st;
     targetQ2Network := targetQ2Network st;
     policyNetwork := policyNetwork st;
     replayMethod := replayMethod st;
     qNetworkUpdater := qNetworkUpdater st;
     policyNetworkUpdater := policyNetworkUpdater st;
     environment := environment st;
     totalSteps := totalSteps st;
     state := state st;
     action := action st;
     deterministic := deterministic st;
     rng := v;
     calls := calls st |}.

Definition set_calls (v : list Event) (st : SAC) : SAC :=
  {| config := config st;
     learningQ1Network := learningQ1Network st;
     learningQ2Network := learningQ2Network st;
     targetQ1Network := targetQ1Network st;
     targetQ2Network := targetQ2Network st;
     policyNetwork := policyNetwork st;
     replayMethod := replayMethod st;
     qNetworkUpdater := qNetworkUpdater st;
     policyNetworkUpdater := policyNetworkUpdater st;
     environment := environment st;
     totalSteps := totalSteps st;
     state := state st;
     action := action st;
     deterministic := deterministic st;
     rng := rng st;
     calls := v |}.

Definition log (e : Event) (st : SAC) : SAC :=
  set_calls (calls st ++ [e]) st.

(** *** Constructor *)

Definition SAC_new (config : TrainingConfig T)
    (learningQ1Network : Net T QL) (policyNetwork : Net T PL)
    (replayMethod : R) (qNetworkUpdater policyNetworkUpdater : U)
    (environment : E) (w : W) : SAC :=
  (* Set up q-learning and policy networks. *)
  let '(q1, w) :=
    if is_empty (Parameters learningQ1Network)
    then ResetParameters learningQ1Network w
    else (learningQ1Network, w) in
  let q2 := q1 in
  let '(q2, w) := ResetParameters q2 w in
  let '(pol, w) :=
    if is_empty (Parameters policyNetwork)
    then ResetParameters policyNetwork w
    else (policyNetwork, w) in
  let qu := Initialize qNetworkUpdater
              (n_rows (Parameters q1)) (n_cols (Parameters q1)) in
  let pu := Initialize policyNetworkUpdater
              (n_rows (Parameters pol)) (n_cols (Parameters pol)) in
  {| config := config;
     learningQ1Network := q1;
     learningQ2Network := q2;
     targetQ1Network := q1;
     targetQ2Network := q2;
     policyNetwork := pol;
     replayMethod := replayMethod;
     qNetworkUpdater := qu;
     policyNetworkUpdater := pu;
     environment := environment;
     totalSteps := 0;
     state := DefaultState;
     action := DefaultAction;
     deterministic := false;
     rng := w;
     calls := [] |}.

(** *** SoftUpdate *)

(** [(1 - rho) * target + rho * learning] on two parameter blocks. *)
Definition soft_mix (rho : T) (target learning : mat T) : option (mat T) :=
  mat_add (scale (ssub (sofZ 1) rho) target) (scale rho learning).

Definition SoftUpdate (rho : T) (st : SAC) : option SAC :=
  let st := log (CallSoftUpdate rho) st in
  p1 <- soft_mix rho (Parameters (targetQ1Network st))
                     (Parameters (learningQ1Network st)) ;;
  let st := set_targetQ1Network (set_Parameters p1 (targetQ1Network st)) st in
  p2 <- soft_mix rho (Parameters (targetQ2Network st))
                     (Parameters (learningQ2Network st)) ;;
  Some (set_targetQ2Network (set_Parameters p2 (targetQ2Network st)) st).

(** *** Update *)

(** Input of the target critics: the policy's actions for the sampled
    next states on top of these states. *)
Definition targetQInput (st : SAC) (b : Batch T (list T)) : option (mat T) :=
  let nextStateActions :=
    Predict (policyNetwork st) (sampledNextStates b) in
  join_vert nextStateActions (sampledNextStates b).

(** [sampledRewards + Discount * (1 - isTerminal) % min(Q1, Q2)]; the
    integer flags are converted to scalars. *)
Definition bootstrap (discount : T) (rewards : list T) (terminal : list Z)
    (Q1 Q2 : list T) : option (list T) :=
  m <- zip_exact smin Q1 Q2 ;;
  p <- zip_exact smul
         (map (fun t => smul discount (sofZ (1 - t)%Z)) terminal) m ;;
  zip_exact sadd rewards p.

Definition nextQ (st : SAC) (b : Batch T (list T)) : option (list T) :=
  inp <- targetQInput st b ;;
  Q1 <- as_row (Predict (targetQ1Network st) inp) ;;
  Q2 <- as_row (Predict (targetQ2Network st) inp) ;;
  bootstrap (Discount (config st)) (sampledRewards b) (isTerminal b) Q1 Q2.

(** A matrix of [action.size] rows whose column [i] is filled with
    component 0 of the [i]-th sampled action. *)
Definition sampledActionValues (acts : list (list T)) : option (mat T) :=
  mapM (fun a => a0 <- nth_error a 0 ;; Some (repeat a0 action_size)) acts.

(** The learning critic of index [i], and its replacement. *)
Definition learningQNetwork (i : critic) (st : SAC) : Net T QL :=
  match i with
  | Critic1 => learningQ1Network st
  | Critic2 => learningQ2Network st
  end.

Definition set_learningQNetwork (i : critic) (n : Net T QL) (st : SAC) : SAC :=
  match i with
  | Critic1 => set_learningQ1Network n st
  | Critic2 => set_learningQ2Network n st
  end.

(** One optimizer call on critic [i]: both critics go through the member
    [qNetworkUpdater]. *)
Definition critic_step (i : critic) (gradient : mat T) (st : SAC) : SAC :=
  let '(u, p) := UpdaterUpdate (qNetworkUpdater st)
                   (Parameters (learningQNetwork i st))
                   (StepSize (config st)) gradient in
  log (CallCriticStep i (StepSize (config st)) gradient)
    (set_qNetworkUpdater u
       (set_learningQNetwork i
          (set_Parameters p (learningQNetwork i st)) st)).

(** Critic network update. *)
Definition Update_critic (b : Batch T (list T)) (st : SAC) : option SAC :=
  target <- nextQ st b ;;
  vals <- sampledActionValues (sampledActions b) ;;
  learningQInput <- join_vert vals (sampledStates b) ;;
  let '(q1, o1) := Forward (learningQ1Network st) learningQInput in
  let st := set_learningQ1Network q1 st in
  Q1 <- as_row o1 ;;
  let '(q2, o2) := Forward (learningQ2Network st) learningQInput in
  let st := set_learningQ2Network q2 st in
  Q2 <- as_row o2 ;;
  let gradQ1Loss := LossBackward Q1 target in
  let st := log (CallLoss Critic1 Q1 target) st in
  let gradQ2Loss := LossBackward Q2 target in
  let st := log (CallLoss Critic2 Q2 target) st in
  (* Update the critic networks. *)
  let '(q1, gradientQ1) :=
    Backward (learningQ1Network st) learningQInput gradQ1Loss in
  let st := critic_step Critic1 gradientQ1 (set_learningQ1Network q1 st) in
  let '(q2, gradientQ2) :=
    Backward (learningQ2Network st) learningQInput gradQ2Loss in
  let st := critic_step Critic2 gradientQ2 (set_learningQ2Network q2 st) in
  Some st.

(** The critic [i] chosen for a sample: forward pass, then backward pass of
    the negated output. *)
Definition actor_critic_pass (i : critic) (input : list T) (st : SAC) :
    mat T * SAC :=
  let '(n, q) := Forward (learningQNetwork i st) [input] in
  let '(n, gradQ) := Backward n [input] (mat_neg q) in
  (gradQ, log (CallActorBackward i input (mat_neg q))
            (set_learningQNetwork i n st)).

(** The body of the loop over the columns of [sampledStates], up to the
    accumulation: the policy gradient [grad] of sample [i]. *)
Definition Update_actor_sample (i : nat) (singleState pi Q1 Q2 : list T)
    (st : SAC) : option (mat T * SAC) :=
  _ <- nth_error pi i ;;
  let '(pol, o) := Forward (policyNetwork st) [singleState] in
  let st := set_policyNetwork pol st in
  singlePi <- as_col o ;;
  let input := singlePi ++ singleState in
  q1 <- nth_error Q1 i ;;
  q2 <- nth_error Q2 i ;;
  let '(gradQ, st) :=
    actor_critic_pass (if sltb q1 q2 then Critic1 else Critic2) input st in
  (* TODO of the source: check for the correct location of pi grad. *)
  gradPolicy <- rows_0 gradQ (length singlePi) ;;
  let '(pol, grad) := Backward (policyNetwork st) [singleState] gradPolicy in
  Some (grad, set_policyNetwork pol st).

(** [gradient += grad], after [gradient] has been given the size of
    [grad] and filled with 0.0 when [i == 0]. *)
Definition accumulate (i : nat) (gradient grad : mat T) : option (mat T) :=
  mat_add (if i =? 0 then filled_like grad (sofQ 0%Q) else gradient) grad.

(** The loop, from column [i] on. *)
Fixpoint Update_actor_loop (cols : list (list T)) (i : nat)
    (pi Q1 Q2 : list T) (gradient : mat T) (st : SAC) :
    option (mat T * SAC) :=
  match cols with
  | [] => Some (gradient, st)
  | singleState :: rest =>
      '(grad, st) <- Update_actor_sample i singleState pi Q1 Q2 st ;;
      gradient <- accumulate i gradient grad ;;
      Update_actor_loop rest (S i) pi Q1 Q2 gradient st
  end.

(** Actor network update. *)
Definition Update_actor (b : Batch T (list T)) (st : SAC) : option SAC :=
  pi <- as_row (Predict (policyNetwork st) (sampledStates b)) ;;
  qInput <- join_vert (row_mat pi) (sampledStates b) ;;
  Q1 <- as_row (Predict (learningQ1Network st) qInput) ;;
  Q2 <- as_row (Predict (learningQ2Network st) qInput) ;;
  '(gradient, st) <-
    Update_actor_loop (sampledStates b) 0 pi Q1 Q2 [] st ;;
  let '(u, p) := UpdaterUpdate (policyNetworkUpdater st)
                   (Parameters (policyNetwork st))
                   (StepSize (config st)) gradient in
  Some (log (CallPolicyStep (StepSize (config st)) gradient)
          (set_policyNetworkUpdater u
             (set_policyNetwork
                (set_Parameters p (policyNetwork st)) st))).

(** Update target network; [%] by a zero interval is a fault. *)
Definition Update_target (st : SAC) : option SAC :=
  if TargetNetworkSyncInterval (config st) =? 0 then None
  else if totalSteps st mod TargetNetworkSyncInterval (config st) =? 0
       then SoftUpdate (sofQ 0.005%Q) st
       else Some st.

Definition Update (st : SAC) : option SAC :=
  let st := log (CallUpdate (totalSteps st)) st in
  (* Sample from previous experience. *)
  let '(b, rp, w) := Sample (replayMethod st) (rng st) in
  let st := set_rng w (set_replayMethod rp st) in
  st <- Update_critic b st ;;
  st <- Update_actor b st ;;
  Update_target st.

(** *** SelectAction *)

Fixpoint randu (n : nat) (w : W) : list T * W :=
  match n with
  | 0 => ([], w)
  | S n' =>
      let '(x, w) := randu1 w in
      let '(xs, w) := randu n' w in
      (x :: xs, w)
  end.

(** The exploration noise for a policy output held in a row vector, whose
    [n_rows] is 1. *)
Definition exploration_noise (w : W) : list T * W :=
  let '(u, w) := randu 1 w in
  let noise := map (fun x => smul x (sofQ 0.1%Q)) u in
  (map (clamp (sneg (sofQ 0.25%Q)) (sofQ 0.25%Q)) noise, w).

Definition SelectAction (st : SAC) : option SAC :=
  (* Get the action at current state, from policy. *)
  outputAction <-
    as_row (Predict (policyNetwork st) [Encode (state st)]) ;;
  '(outputAction, w) <-
    (if negb (deterministic st)
     then
       let '(noise, w) := exploration_noise (rng st) in
       out <- zip_exact sadd outputAction noise ;;
       Some (out, w)
     else Some (outputAction, rng st)) ;;
  a0 <- nth_error outputAction 0 ;;
  a <- set_first a0 (action st) ;;
  Some (set_action a (set_rng w st)).

(** *** Episode *)

(** One iteration of the loop, after its two exit tests. *)
Definition Episode_body (st : SAC) (steps : nat) (totalReturn : T) :
    option (SAC * nat * T) :=
  st <- SelectAction st ;;
  (* Interact with the environment to advance to next state. *)
  let '(reward, nextState, env, w) :=
    EnvSample (environment st) (rng st) (state st) (action st) in
  let st := log (CallEnvSample (state st) (action st) reward nextState)
              (set_rng w (set_environment env st)) in
  let totalReturn := sadd totalReturn reward in
  let steps := S steps in
  let st := set_totalSteps (S (totalSteps st)) st in
  (* Store the transition for replay. *)
  let terminal := IsTerminal (environment st) nextState in
  let st := log (CallStore (state st) (action st) reward nextState
                   terminal (Discount (config st)))
              (set_replayMethod
                 (Store (replayMethod st) (state st) (action st) reward
                    nextState terminal (Discount (config st))) st) in
  (* Update current state. *)
  let st := set_state nextState st in
  if deterministic st || (totalSteps st <? ExplorationSteps (config st))
  then Some (st, steps, totalReturn)
  else st <- Update st ;; Some (st, steps, totalReturn).

Fixpoint Episode_loop (fuel : nat) (st : SAC) (steps : nat)
    (totalReturn : T) : Outcome (SAC * T) :=
  match fuel with
  | 0 => OutOfFuel
  | S fuel' =>
      if IsTerminal (environment st) (state st)
      then Done (st, totalReturn)
      else if negb (StepLimit (config st) =? 0)
              && (StepLimit (config st) <=? steps)
      then Done (st, totalReturn)
      else match Episode_body st steps totalReturn with
           | None => Fault
           | Some (st', steps', totalReturn') =>
               Episode_loop fuel' st' steps' totalReturn'
           end
  end.

(** [fuel] bounds the number of times the loop condition is evaluated. *)
Definition Episode (fuel : nat) (st : SAC) : Outcome (SAC * T) :=
  (* Get the initial state from environment. *)
  let '(s0, env, w) := InitialSample (environment st) (rng st) in
  let st := set_state s0 (set_rng w (set_environment env st)) in
  Episode_loop fuel st 0 (sofQ 0%Q).

(** *** Readings of the loop and of the call log *)

(** The per-sample policy gradients of the actor loop, in order. *)
Fixpoint Update_actor_grads (cols : list (list T)) (i : nat)
    (pi Q1 Q2 : list T) (st : SAC) : option (list (mat T) * SAC) :=
  match cols with
  | [] => Some ([], st)
  | singleState :: rest =>
      '(grad, st) <- Update_actor_sample i singleState pi Q1 Q2 st ;;
      '(grads, st) <- Update_actor_grads rest (S i) pi Q1 Q2 st ;;
      Some (grad :: grads, st)
  end.

(** [accumulate] over a list of gradients, from iteration [i] on. *)
Fixpoint accumulate_all (i : nat) (gradient : mat T) (grads : list (mat T)) :
    option (mat T) :=
  match grads with
  | [] => Some gradient
  | grad :: rest =>
      gradient <- accumulate i gradient grad ;;
      accumulate_all (S i) gradient rest
  end.

(** Rewards returned by the environment. *)
Definition rewards_of (tr : list Event) : list T :=
  flat_map (fun e => match e with CallEnvSample _ _ r _ => [r] | _ => [] end) tr.

(** Values of [totalSteps] at which [Update] was entered. *)
Definition updates_of (tr : list Event) : list nat :=
  flat_map (fun e => match e with CallUpdate k => [k] | _ => [] end) tr.

(** Rates of the soft updates. *)
Definition soft_updates_of (tr : list Event) : list T :=
  flat_map (fun e => match e with CallSoftUpdate rho => [rho] | _ => [] end) tr.

(** Environment steps and stores, other calls left out. *)
Definition interaction (e : Event) : bool :=
  match e with
  | CallEnvSample _ _ _ _ | CallStore _ _ _ _ _ _ => true
  | _ => false
  end.

(** Calls made by the critic and actor updates. *)
Definition learning_event (e : Event) : bool :=
  match e with
  | CallLoss _ _ _ | CallCriticStep _ _ _
  | CallActorBackward _ _ _ | CallPolicyStep _ _ => true
  | _ => false
  end.

Definition policy_steps_of (tr : list Event) : list (T * mat T) :=
  flat_map (fun e => match e with CallPolicyStep h g => [(h, g)] | _ => [] end)
    tr.

(** [st'] has come from [st] by learning only: the configuration, the
    counters, the environment, the replay, the generator and both target
    critics are the same, and the calls [tr] have been added. *)
Definition learned (tr : list Event) (st st' : SAC) : Prop :=
  config st' = config st /\ totalSteps st' = totalSteps st /\
  deterministic st' = deterministic st /\ state st' = state st /\
  action st' = action st /\ environment st' = environment st /\
  replayMethod st' = replayMethod st /\ rng st' = rng st /\
  targetQ1Network st' = targetQ1Network st /\
  targetQ2Network st' = targetQ2Network st /\
  calls st' = calls st ++ tr.

Definition actor_backward_event (e : Event) : bool :=
  match e with
  | CallActorBackward _ _ _ => true
  | _ => false
  end.

Definition losses_of (tr : list Event) : list (critic * list T * list T) :=
  flat_map (fun e => match e with CallLoss i p t => [(i, p, t)] | _ => [] end)
    tr.

(** The test before [Update] in the loop of [Episode]: no learning at the
    step that brings the counter to [S (totalSteps st)]. *)
Definition skips_learning (st : SAC) : bool :=
  deterministic st || (S (totalSteps st) <? ExplorationSteps (config st)).

(** The agent [sa] after the environment has answered [(reward, nextState)]
    and left [env] and [w]: the counter is incremented, the transition is
    stored and the current state replaced. *)
Definition interacted (sa : SAC) (reward : T) (nextState : St) (env : E)
    (w : W) : SAC :=
  set_state nextState
    (log (CallStore (state sa) (action sa) reward nextState
            (IsTerminal env nextState) (Discount (config sa)))
       (set_replayMethod
          (Store (replayMethod sa) (state sa) (action sa) reward nextState
             (IsTerminal env nextState) (Discount (config sa)))
          (set_totalSteps (S (totalSteps sa))
             (log (CallEnvSample (state sa) (action sa) reward nextState)
                (set_rng w (set_environment env sa)))))).

(** One environment step as the call log shows it: state, action, reward,
    next state and terminal flag. *)
Definition Step : Type := St * list T * T * St * bool.

Definition step_terminal (x : Step) : bool := snd x.

Definition step_next (x : Step) : St := snd (fst x).

Definition step_calls (discount : T) (x : Step) : list Event :=
  let '(s, a, r, s', t) := x in
  [CallEnvSample s a r s'; CallStore s a r s' t discount].

(** Each step starts in the state the previous one ended in. *)
Fixpoint chained (s : St) (l : list Step) : Prop :=
  match l with
  | [] => True
  | x :: l' => fst (fst (fst (fst x))) = s /\ chained (step_next x) l'
  end.

(** Every step but the last carries the flag [false]; the last carries
    [final]. *)
Fixpoint terminal_flags (final : bool) (l : list Step) : Prop :=
  match l with
  | [] => True
  | x :: l' =>
      match l' with
      | [] => step_terminal x = final
      | _ :: _ => step_terminal x = false /\ terminal_flags final l'
      end
  end.

Definition other_critic (i : critic) : critic :=
  match i with
  | Critic1 => Critic2
  | Critic2 => Critic1
  end.

End Agent.

Arguments CallEnvSample {T St}.
Arguments CallStore {T St}.
Arguments CallUpdate {T St}.
Arguments CallLoss {T St}.
Arguments CallCriticStep {T St}.
Arguments CallActorBackward {T St}.
Arguments CallPolicyStep {T St}.
Arguments CallSoftUpdate {T St}.
Arguments actor_backward_event {T St}.
Arguments learning_event {T St}.
Arguments interaction {T St}.

(** ** Small collaborators on which the agent can be run

    A linear network, a momentum updater, a replay that keeps everything and
    samples all of it, and two one-dimensional environments.  They are written
    over any scalar type. *)

Section Collaborators.
Context {T : Type} `{Scalar T}.

Definition vec_add (x y : list T) : list T :=
  map (fun p => sadd (fst p) (snd p)) (combine x y).

Definition dot (w x : list T) : T :=
  fold_left sadd (map (fun p => smul (fst p) (snd p)) (combine w x))
    (sofQ 0%Q).

(** Width of the input and the initialization rule: a constant, or draws
    from the generator. *)
Record LinearLayers : Type := mkLinear {
  width : nat;
  constant_init : option T
}.

Definition weights (n : Net T LinearLayers) : list T :=
  hd [] (Parameters n).

Definition linear_Predict (n : Net T LinearLayers) (X : mat T) : mat T :=
  map (fun x => [dot (weights n) x]) X.

(** Gradient of the parameters: the sum over the columns of the output
    gradient times the input. *)
Definition linear_Backward (n : Net T LinearLayers) (X G : mat T) :
    Net T LinearLayers * mat T :=
  (n, [fold_left
         (fun acc p => vec_add acc (map (smul (hd (sofQ 0%Q) (snd p))) (fst p)))
         (combine X G)
         (repeat (sofQ 0%Q) (width (layers n)))]).

Definition counter_randu1 (w : nat) : T * nat :=
  (sofQ (Z.of_nat (w mod 10) # 10)%Q, S w).

Fixpoint counter_randu (n : nat) (w : nat) : list T * nat :=
  match n with
  | 0 => ([], w)
  | S n' =>
      let '(x, w) := counter_randu1 w in
      let '(xs, w) := counter_randu n' w in
      (x :: xs, w)
  end.

Definition linear_Reset (n : Net T LinearLayers) (w : nat) :
    Net T LinearLayers * nat :=
  match constant_init (layers n) with
  | Some c => (set_Parameters [repeat c (width (layers n))] n, w)
  | None =>
      let '(xs, w) := counter_randu (width (layers n)) w in
      (set_Parameters [xs] n, w)
  end.

Definition linear_Network : Network T nat LinearLayers := {|
  ResetParameters := linear_Reset;
  Predict := linear_Predict;
  Forward := fun n X => (n, linear_Predict n X);
  Backward := linear_Backward
|}.

Definition counter_Random : Random T nat := {| randu1 := counter_randu1 |}.

(** Momentum updater: [v := m * v - step * g; p := p + v]. *)
Record Momentum : Type := mkMomentum {
  momentum : T;
  velocity : mat T
}.

Definition momentum_Update (u : Momentum) (p : mat T) (step : T)
    (g : mat T) : Momentum * mat T :=
  let v := map (fun cs =>
              map (fun e => ssub (smul (momentum u) (fst e))
                                 (smul step (snd e)))
                  (combine (fst cs) (snd cs)))
             (combine (velocity u) g) in
  ({| momentum := momentum u; velocity := v |},
   map (fun cs => vec_add (fst cs) (snd cs)) (combine p v)).

Definition momentum_Updater : Updater T Momentum := {|
  Initialize := fun u r c =>
    {| momentum := momentum u;
       velocity := repeat (repeat (sofQ 0%Q) r) c |};
  UpdaterUpdate := momentum_Update
|}.

(** Loss gradient [prediction - target]. *)
Definition difference_Loss : Loss T := {|
  LossBackward := fun p t =>
    row_mat (map (fun e => ssub (fst e) (snd e)) (combine p t))
|}.

(** A stored transition. *)
Record Transition (St : Type) : Type := mkTransition {
  tr_state : St;
  tr_action : list T;
  tr_reward : T;
  tr_next : St;
  tr_terminal : bool;
  tr_discount : T
}.

(** The state of the two environments is one scalar. *)
Definition keep_all_Replay : Replay T nat (list (Transition T)) T := {|
  Store := fun r s a x s' t d => r ++ [mkTransition s a x s' t d];
  Sample := fun r w =>
    ({| sampledStates := map (fun t => [tr_state t]) r;
        sampledActions := map (fun t => tr_action t) r;
        sampledRewards := map (fun t => tr_reward t) r;
        sampledNextStates := map (fun t => [tr_next t]) r;
        isTerminal := map (fun t => if tr_terminal t then 1%Z else 0%Z) r |},
     r, w)
|}.

(** An environment without terminal state: the action moves the point,
    the reward is the new position. *)
Definition endless_Environment : Environment T nat unit T := {|
  InitialSample := fun e w => (sofZ 1%Z, e, w);
  IsTerminal := fun _ _ => false;
  EnvSample := fun e w s a =>
    let s' := sadd s (hd (sofQ 0%Q) a) in (s', s', e, w);
  Encode := fun s => [s];
  DefaultState := sofQ 0%Q;
  DefaultAction := [sofQ 0%Q];
  action_size := 1
|}.

(** The same dynamics; the state is terminal once the environment has
    made [horizon] steps.  The environment holds (horizon, steps made). *)
Definition horizon_Environment : Environment T nat (nat * nat) T := {|
  InitialSample := fun e w => (sofZ 1%Z, (fst e, 0), w);
  IsTerminal := fun e _ => fst e <=? snd e;
  EnvSample := fun e w s a =>
    let s' := sadd s (hd (sofQ 0%Q) a) in (s', s', (fst e, S (snd e)), w);
  Encode := fun s => [s];
  DefaultState := sofQ 0%Q;
  DefaultAction := [sofQ 0%Q];
  action_size := 1
|}.
End Collaborators.

Arguments LinearLayers T : clear implicits.
Arguments Momentum T : clear implicits.
Arguments Transition T St : clear implicits.

#[export] Existing Instance linear_Network.
#[export] Existing Instance counter_Random.
#[export] Existing Instance momentum_Updater.
#[export] Existing Instance difference_Loss.
#[export] Existing Instance keep_all_Replay.
#[export] Existing Instance endless_Environment.
#[export] Existing Instance horizon_Environment.

(** Agents over exact rationals. *)
Module Toy.
Definition cfg (limit exploration interval : nat) : TrainingConfig Q :=
  {| Discount := (9 # 10)%Q;
     StepSize := (1 # 10)%Q;
     StepLimit := limit;
     ExplorationSteps := exploration;
     TargetNetworkSyncInterval := interval |}.

Definition critic0 (init : option Q) : Net Q (LinearLayers Q) :=
  {| Parameters := []; layers := mkLinear 2 init |}.

Definition policy0 : Net Q (LinearLayers Q) :=
  {| Parameters := [[(1 # 2)%Q]]; layers := mkLinear 1 None |}.

Definition updater0 : (Momentum Q) :=
  {| momentum := (1 # 2)%Q; velocity := [] |}.

(** In the environment without terminal state. *)
Definition agent (limit exploration interval : nat) :
    SAC Q nat (LinearLayers Q) (LinearLayers Q) (Momentum Q) (list (Transition Q Q))
        unit Q :=
  SAC_new (cfg limit exploration interval) (critic0 None) policy0 []
    updater0 updater0 tt 3.

(** In the environment that ends after [horizon] steps. *)
Definition agent_h (horizon limit exploration interval : nat) :
    SAC Q nat (LinearLayers Q) (LinearLayers Q) (Momentum Q) (list (Transition Q Q))
        (nat * nat) Q :=
  SAC_new (cfg limit exploration interval) (critic0 None) policy0 []
    updater0 updater0 (horizon, 0) 3.

(** With a constant initialization rule for the critics. *)
Definition agent_const :
    SAC Q nat (LinearLayers Q) (LinearLayers Q) (Momentum Q) (list (Transition Q Q))
        unit Q :=
  SAC_new (cfg 3 1 2) (critic0 (Some (1 # 4)%Q)) policy0 []
    updater0 updater0 tt 3.

(** An agent that has stored one transition and counted one step. *)
Definition learner (interval : nat) :
    SAC Q nat (LinearLayers Q) (LinearLayers Q) (Momentum Q)
        (list (Transition Q Q)) unit Q :=
  set_totalSteps 1
    (set_replayMethod
       [mkTransition 1%Q [(1 # 2)%Q] (3 # 2)%Q (3 # 2)%Q false (9 # 10)%Q]
       (agent 3 1 interval)).

(** The same agent in deterministic mode. *)
Definition evaluator :
    SAC Q nat (LinearLayers Q) (LinearLayers Q) (Momentum Q)
        (list (Transition Q Q)) unit Q :=
  set_deterministic true (agent 3 1 2).
End Toy.


(** * Facts *)

(** ** Tactics for the error monad *)

(** Case analysis on the first test or bind that decides a hypothesis. *)
Ltac step_in H :=
  match type of H with
  | context [match ?e with _ => _ end] =>
      let E := fresh "E" in destruct e eqn:E; cbn in H; try discriminate H
  end.

Ltac steps_in H := repeat step_in H.

Ltac some_inv H := injection H as H; subst.

(** ** Element-wise operations *)

Section ArmaFacts.
Context {T : Type} `{Scalar T}.

Lemma zipM_length {A B C : Type} (f : A -> B -> option C) l1 l2 l :
  zipM f l1 l2 = Some l -> length l1 = length l2 /\ length l = length l1.
Proof.
  revert l2 l; induction l1 as [|a l1 IH]; intros [|b l2] l E; cbn in E;
    try discriminate.
  - some_inv E. split; reflexivity.
  - destruct (f a b); [|discriminate].
    destruct (zipM f l1 l2) eqn:Z; [|discriminate].
    some_inv E. destruct (IH _ _ Z) as [L1 L2]. cbn. split; congruence.
Qed.

Lemma zipM_nth {A B C : Type} (f : A -> B -> option C) l1 l2 l i a b :
  zipM f l1 l2 = Some l ->
  nth_error l1 i = Some a -> nth_error l2 i = Some b ->
  exists c, f a b = Some c /\ nth_error l i = Some c.
Proof.
  revert l2 l i; induction l1 as [|a1 l1 IH]; intros [|b1 l2] l i E Ha Hb;
    cbn in E; try discriminate.
  - destruct i; discriminate.
  - destruct (f a1 b1) eqn:F; [|discriminate].
    destruct (zipM f l1 l2) eqn:Z; [|discriminate].
    some_inv E. destruct i as [|i]; cbn in *.
    + some_inv Ha. some_inv Hb. eauto.
    + eapply IH; eauto.
Qed.

Lemma zipM_total {A B C : Type} (f : A -> B -> option C) l1 l2 :
  length l1 = length l2 ->
  (forall a b, In a l1 -> In b l2 -> f a b <> None) ->
  exists l, zipM f l1 l2 = Some l.
Proof.
  revert l2; induction l1 as [|a l1 IH]; intros [|b l2] L F; cbn in L;
    try discriminate.
  - exists []. reflexivity.
  - cbn. destruct (f a b) eqn:Fab.
    + destruct (IH l2) as [l Z].
      * congruence.
      * intros; apply F; cbn; auto.
      * rewrite Z. eauto.
    + exfalso. apply (F a b); cbn; auto.
Qed.

Lemma zip_exact_nth {A B C : Type} (f : A -> B -> C) l1 l2 l i a b :
  zip_exact f l1 l2 = Some l ->
  nth_error l1 i = Some a -> nth_error l2 i = Some b ->
  nth_error l i = Some (f a b).
Proof.
  intros E Ha Hb. destruct (zipM_nth _ _ _ _ E Ha Hb) as (c & F & N).
  some_inv F. exact N.
Qed.

Lemma zip_exact_total {A B C : Type} (f : A -> B -> C) l1 l2 :
  length l1 = length l2 -> exists l, zip_exact f l1 l2 = Some l.
Proof.
  intros L. apply zipM_total; [exact L | discriminate].
Qed.

Lemma mapM_nth {A B : Type} (f : A -> option B) l r i a :
  mapM f l = Some r -> nth_error l i = Some a ->
  exists b, f a = Some b /\ nth_error r i = Some b.
Proof.
  revert r i; induction l as [|x l IH]; intros r i E Ha; cbn in E.
  - destruct i; discriminate.
  - destruct (f x) eqn:F; [|discriminate].
    destruct (mapM f l) eqn:M; [|discriminate].
    some_inv E. destruct i as [|i]; cbn in *.
    + some_inv Ha. eauto.
    + eapply IH; eauto.
Qed.

Lemma mapM_length {A B : Type} (f : A -> option B) l r :
  mapM f l = Some r -> length r = length l.
Proof.
  revert r; induction l as [|x l IH]; intros r E; cbn in E.
  - some_inv E. reflexivity.
  - destruct (f x); [|discriminate].
    destruct (mapM f l) eqn:M; [|discriminate].
    some_inv E. cbn. f_equal. auto.
Qed.

(** An entry of [A + B] is the sum of the entries. *)
Lemma mat_add_entry (A B C : mat T) i j a b :
  mat_add A B = Some C ->
  entry A i j = Some a -> entry B i j = Some b ->
  entry C i j = Some (sadd a b).
Proof.
  unfold mat_add, entry. intros E Ha Hb.
  destruct (nth_error A j) as [ca|] eqn:NA; [|discriminate].
  destruct (nth_error B j) as [cb|] eqn:NB; [|discriminate].
  destruct (zipM_nth _ _ _ _ E NA NB) as (c & F & N).
  rewrite N. eapply zip_exact_nth; eauto.
Qed.

Lemma scale_entry k (A : mat T) i j :
  entry (scale k A) i j = option_map (smul k) (entry A i j).
Proof.
  unfold scale, entry. rewrite nth_error_map.
  destruct (nth_error A j) as [c|]; cbn; [|reflexivity].
  rewrite nth_error_map. reflexivity.
Qed.

(** The sum has the entries of its operands and no other. *)
Lemma mat_add_entry_None (A B C : mat T) i j :
  mat_add A B = Some C ->
  (entry C i j = None <-> entry A i j = None).
Proof.
  unfold mat_add, entry. intros E.
  destruct (zipM_length _ _ _ E) as [L1 L2].
  destruct (nth_error A j) as [ca|] eqn:NA.
  - assert (exists cb, nth_error B j = Some cb) as [cb NB].
    { destruct (nth_error B j) eqn:NB; eauto.
      apply nth_error_None in NB.
      assert (j < length A) by (apply nth_error_Some; congruence). lia. }
    destruct (zipM_nth _ _ _ _ E NA NB) as (c & F & N). rewrite N.
    destruct (zipM_length _ _ _ F) as [_ L3].
    rewrite !nth_error_None. rewrite L3. reflexivity.
  - apply nth_error_None in NA.
    assert (nth_error C j = None) as -> by (apply nth_error_None; lia).
    tauto.
Qed.

Lemma zipM_nth_inv {A B C : Type} (f : A -> B -> option C) l1 l2 l i c :
  zipM f l1 l2 = Some l -> nth_error l i = Some c ->
  exists a b, nth_error l1 i = Some a /\ nth_error l2 i = Some b /\
              f a b = Some c.
Proof.
  revert l2 l i; induction l1 as [|a1 l1 IH]; intros [|b1 l2] l i Hz Hc;
    cbn in Hz; try discriminate.
  - some_inv Hz. destruct i; discriminate.
  - destruct (f a1 b1) eqn:F; [|discriminate].
    destruct (zipM f l1 l2) eqn:Z; [|discriminate].
    some_inv Hz. destruct i as [|i]; cbn in *.
    + some_inv Hc. eauto.
    + eapply IH; eauto.
Qed.

(** An entry of [A + B] comes from an entry of [A] and an entry of [B]. *)
Lemma mat_add_entry_inv (A B C : mat T) i j v :
  mat_add A B = Some C -> entry C i j = Some v ->
  exists a b, entry A i j = Some a /\ entry B i j = Some b /\ v = sadd a b.
Proof.
  unfold mat_add, entry. intros Hz Hv.
  destruct (nth_error C j) as [cc|] eqn:NC; [|discriminate].
  destruct (zipM_nth_inv _ _ _ _ Hz NC) as (ca & cb & NA & NB & Hcol).
  destruct (zipM_nth_inv _ _ _ _ Hcol Hv) as (a & b & Ha & Hb & Hab).
  some_inv Hab. rewrite NA, NB. eauto.
Qed.

Lemma filled_like_entry (A : mat T) v i j :
  entry (filled_like A v) i j = option_map (fun _ => v) (entry A i j).
Proof.
  unfold filled_like, entry. rewrite nth_error_map.
  destruct (nth_error A j) as [c|]; cbn; [|reflexivity].
  rewrite nth_error_map. reflexivity.
Qed.
End ArmaFacts.

(** ** The agent's functions, one by one *)

Section AgentFacts.
Variables T W QL PL U R E St : Type.
Context {ST : Scalar T} {QN : Network T W QL} {PN : Network T W PL}
        {UP : Updater T U} {LF : Loss T} {RN : Random T W}
        {EN : Environment T W E St} {RP : Replay T W R St}.

Abbreviation Agent := (SAC T W QL PL U R E St).

(** [new] is [(1 - rho) * old + rho * learning], entry by entry, and has
    the entries of [old] and no other. *)
Definition interpolates (rho : T) (old learning new : mat T) : Prop :=
  (forall i j a b,
      entry old i j = Some a -> entry learning i j = Some b ->
      entry new i j =
        Some (sadd (smul (ssub (sofZ 1%Z) rho) a) (smul rho b)))
  /\ (forall i j, entry new i j = None <-> entry old i j = None).

Lemma soft_mix_interpolates rho (old learning new : mat T) :
  soft_mix rho old learning = Some new -> interpolates rho old learning new.
Proof.
  unfold soft_mix. intros Hs. split.
  - intros i j a b Ha Hb. eapply mat_add_entry; eauto.
    + rewrite scale_entry, Ha. reflexivity.
    + rewrite scale_entry, Hb. reflexivity.
  - intros i j. rewrite (mat_add_entry_None _ _ i j Hs).
    rewrite scale_entry. destruct (entry old i j); cbn; split; congruence.
Qed.

Lemma soft_mix_total rho (old learning : mat T) :
  map (@length T) old = map (@length T) learning ->
  exists new, soft_mix rho old learning = Some new.
Proof.
  unfold soft_mix, mat_add, scale. revert learning.
  induction old as [|c old IH]; intros [|d learning] L; cbn in L;
    try discriminate.
  - exists []. reflexivity.
  - injection L as L1 L2. cbn.
    destruct (zip_exact_total sadd
                (map (smul (ssub (sofZ 1%Z) rho)) c) (map (smul rho) d))
      as [r Zr].
    { rewrite !length_map. exact L1. }
    rewrite Zr. destruct (IH _ L2) as [new Zn]. rewrite Zn. eauto.
Qed.

(** What [SoftUpdate] changes and what it leaves alone. *)
Lemma SoftUpdate_inv rho (st st' : Agent) :
  SoftUpdate rho st = Some st' ->
  exists p1 p2,
    soft_mix rho (Parameters (targetQ1Network st))
      (Parameters (learningQ1Network st)) = Some p1 /\
    soft_mix rho (Parameters (targetQ2Network st))
      (Parameters (learningQ2Network st)) = Some p2 /\
    st' = set_targetQ2Network (set_Parameters p2 (targetQ2Network st))
            (set_targetQ1Network (set_Parameters p1 (targetQ1Network st))
               (log (CallSoftUpdate rho) st)).
Proof.
  unfold SoftUpdate. cbn. intros H.
  destruct (soft_mix rho (Parameters (targetQ1Network st)) _) as [p1|] eqn:E1;
    [|discriminate].
  destruct (soft_mix rho (Parameters (targetQ2Network st)) _) as [p2|] eqn:E2;
    [|discriminate].
  some_inv H. exists p1, p2. auto.
Qed.

(** *** Critic update *)

Lemma critic_step_inv (i : critic) g (st : Agent) :
  exists u p,
    UpdaterUpdate (qNetworkUpdater st) (Parameters (learningQNetwork i st))
      (StepSize (config st)) g = (u, p) /\
    critic_step i g st =
      log (CallCriticStep i (StepSize (config st)) g)
        (set_qNetworkUpdater u
           (set_learningQNetwork i
              (set_Parameters p (learningQNetwork i st)) st)).
Proof.
  unfold critic_step.
  destruct (UpdaterUpdate (qNetworkUpdater st) _ _ g) as [u p].
  exists u, p. split; reflexivity.
Qed.

(** Every intermediate value of the critic update and the resulting state. *)
Lemma Update_critic_inv b (st st' : Agent) :
  Update_critic b st = Some st' ->
  exists target vals inp q1 o1 Q1 q2 o2 Q2 q1' g1 u1 p1 q2' g2 u2 p2,
    nextQ st b = Some target /\
    sampledActionValues (sampledActions b) = Some vals /\
    join_vert vals (sampledStates b) = Some inp /\
    Forward (learningQ1Network st) inp = (q1, o1) /\
    as_row o1 = Some Q1 /\
    Forward (learningQ2Network st) inp = (q2, o2) /\
    as_row o2 = Some Q2 /\
    Backward q1 inp (LossBackward Q1 target) = (q1', g1) /\
    UpdaterUpdate (qNetworkUpdater st) (Parameters q1')
      (StepSize (config st)) g1 = (u1, p1) /\
    Backward q2 inp (LossBackward Q2 target) = (q2', g2) /\
    UpdaterUpdate u1 (Parameters q2') (StepSize (config st)) g2 = (u2, p2) /\
    st' = set_calls
            (calls st ++
               [CallLoss Critic1 Q1 target; CallLoss Critic2 Q2 target;
                CallCriticStep Critic1 (StepSize (config st)) g1;
                CallCriticStep Critic2 (StepSize (config st)) g2])
            (set_qNetworkUpdater u2
               (set_learningQ2Network (set_Parameters p2 q2')
                  (set_learningQ1Network (set_Parameters p1 q1') st))).
Proof.
  unfold Update_critic. intros Hu.
  destruct (nextQ st b) as [target|] eqn:Ht; [|discriminate].
  destruct (sampledActionValues (sampledActions b)) as [vals|] eqn:Hv;
    [|discriminate].
  destruct (join_vert vals (sampledStates b)) as [inp|] eqn:Hi; [|discriminate].
  destruct (Forward (learningQ1Network st) inp) as [q1 o1] eqn:F1.
  destruct (as_row o1) as [Q1|] eqn:R1; [|discriminate].
  cbn in Hu.
  destruct (Forward (learningQ2Network st) inp) as [q2 o2] eqn:F2.
  destruct (as_row o2) as [Q2|] eqn:R2; [|discriminate].
  cbn in Hu.
  destruct (Backward q1 inp (LossBackward Q1 target)) as [q1' g1] eqn:B1.
  unfold critic_step in Hu. cbn in Hu.
  destruct (UpdaterUpdate (qNetworkUpdater st) (Parameters q1') _ g1)
    as [u1 p1] eqn:U1.
  cbn in Hu.
  destruct (Backward q2 inp (LossBackward Q2 target)) as [q2' g2] eqn:B2.
  cbn in Hu.
  destruct (UpdaterUpdate u1 (Parameters q2') _ g2) as [u2 p2] eqn:U2.
  some_inv Hu.
  exists target, vals, inp, q1, o1, Q1, q2, o2, Q2, q1', g1, u1, p1,
    q2', g2, u2, p2.
  repeat (split; [reflexivity || assumption|]).
  unfold log, set_calls. cbn. rewrite <- !app_assoc. reflexivity.
Qed.

(** *** Actor update *)

Lemma Update_actor_sample_inv i s pi Q1 Q2 (st st' : Agent) grad :
  Update_actor_sample i s pi Q1 Q2 st = Some (grad, st') ->
  exists p pol o singlePi q1 q2 n q n' gradQ gradPolicy pol',
    nth_error pi i = Some p /\
    Forward (policyNetwork st) [s] = (pol, o) /\
    as_col o = Some singlePi /\
    nth_error Q1 i = Some q1 /\
    nth_error Q2 i = Some q2 /\
    Forward
      (learningQNetwork (if sltb q1 q2 then Critic1 else Critic2) st)
      [singlePi ++ s] = (n, q) /\
    Backward n [singlePi ++ s] (mat_neg q) = (n', gradQ) /\
    rows_0 gradQ (length singlePi) = Some gradPolicy /\
    Backward pol [s] gradPolicy = (pol', grad) /\
    st' = set_policyNetwork pol'
            (log (CallActorBackward
                    (if sltb q1 q2 then Critic1 else Critic2)
                    (singlePi ++ s) (mat_neg q))
               (set_learningQNetwork
                  (if sltb q1 q2 then Critic1 else Critic2) n' st)).
Proof.
  unfold Update_actor_sample. intros Hu.
  destruct (nth_error pi i) as [p|] eqn:Hp; [|discriminate].
  destruct (Forward (policyNetwork st) [s]) as [pol o] eqn:Fp.
  destruct (as_col o) as [singlePi|] eqn:Hc; [|discriminate].
  destruct (nth_error Q1 i) as [q1|] eqn:H1; [|discriminate].
  destruct (nth_error Q2 i) as [q2|] eqn:H2; [|discriminate].
  unfold actor_critic_pass in Hu.
  remember (if sltb q1 q2 then Critic1 else Critic2) as c eqn:Hchoice.
  assert (learningQNetwork c (set_policyNetwork pol st) = learningQNetwork c st)
    as Hl by (destruct c; reflexivity).
  rewrite Hl in Hu.
  destruct (Forward (learningQNetwork c st) [singlePi ++ s]) as [n q] eqn:Fq.
  destruct (Backward n [singlePi ++ s] (mat_neg q)) as [n' gradQ] eqn:Bq.
  destruct (rows_0 gradQ (length singlePi)) as [gradPolicy|] eqn:Hr;
    [|discriminate].
  assert (policyNetwork
            (log (CallActorBackward c (singlePi ++ s) (mat_neg q))
               (set_learningQNetwork c n' (set_policyNetwork pol st))) = pol)
    as Hpn by (destruct c; reflexivity).
  rewrite Hpn in Hu.
  destruct (Backward pol [s] gradPolicy) as [pol' grad'] eqn:Bp.
  some_inv Hu.
  exists p, pol, o, singlePi, q1, q2, n, q, n', gradQ, gradPolicy, pol'.
  repeat (split; [reflexivity || assumption|]).
  destruct (sltb q1 q2); reflexivity.
Qed.

(** *** Learning leaves the targets and the run state alone *)

Lemma learned_refl (st : Agent) : learned [] st st.
Proof.
  unfold learned. repeat (split; [reflexivity|]).
  rewrite app_nil_r. reflexivity.
Qed.

Lemma learned_trans ta tb (a b c : Agent) :
  learned ta a b -> learned tb b c -> learned (ta ++ tb) a c.
Proof.
  unfold learned.
  intros (A1 & A2 & A3 & A4 & A5 & A6 & A7 & A8 & A9 & A10 & Ca)
         (B1 & B2 & B3 & B4 & B5 & B6 & B7 & B8 & B9 & B10 & Cb).
  repeat (split; [congruence|]).
  rewrite Cb, Ca, app_assoc. reflexivity.
Qed.

Lemma Update_actor_sample_learned i s pi Q1 Q2 (st st' : Agent) grad :
  Update_actor_sample i s pi Q1 Q2 st = Some (grad, st') ->
  exists e, actor_backward_event e = true /\
    learned [e] st st' /\
    qNetworkUpdater st' = qNetworkUpdater st /\
    policyNetworkUpdater st' = policyNetworkUpdater st.
Proof.
  intros Hu. apply Update_actor_sample_inv in Hu.
  destruct Hu as (p & pol & o & singlePi & q1 & q2 & n & q & n' & gradQ
                  & gradPolicy & pol' & _ & _ & _ & _ & _ & _ & _ & _ & _ & ->).
  exists (CallActorBackward (if sltb q1 q2 then Critic1 else Critic2)
            (singlePi ++ s) (mat_neg q)).
  split; [|split; [|split]].
  2: { unfold learned.
       destruct (sltb q1 q2); cbn; repeat (split; [reflexivity|]);
         reflexivity. }
  - reflexivity.
  - destruct (sltb q1 q2); reflexivity.
  - destruct (sltb q1 q2); reflexivity.
Qed.

Lemma Update_actor_grads_learned cols : forall i pi Q1 Q2 (st st' : Agent) grads,
  Update_actor_grads cols i pi Q1 Q2 st = Some (grads, st') ->
  exists tr, learned tr st st' /\
    forallb actor_backward_event tr = true /\
    length tr = length cols /\
    qNetworkUpdater st' = qNetworkUpdater st /\
    policyNetworkUpdater st' = policyNetworkUpdater st /\
    length grads = length cols.
Proof.
  induction cols as [|s cols IH]; intros i pi Q1 Q2 st st' grads Hu; cbn in Hu.
  - some_inv Hu. exists []. split; [apply learned_refl|]. repeat split.
  - destruct (Update_actor_sample i s pi Q1 Q2 st) as [[grad st1]|] eqn:Hs;
      [|discriminate].
    destruct (Update_actor_grads cols (S i) pi Q1 Q2 st1) as [[gs st2]|] eqn:Hg;
      [|discriminate].
    some_inv Hu.
    destruct (Update_actor_sample_learned _ _ _ _ _ _ Hs)
      as (e & He & L1 & U1 & P1).
    destruct (IH _ _ _ _ _ _ _ Hg) as (tr & L2 & F2 & N2 & U2 & P2 & Len).
    exists ([e] ++ tr). split; [eapply learned_trans; eassumption|].
    cbn. rewrite He, F2. repeat split; congruence.
Qed.

(** The loop is its per-sample gradients, accumulated. *)
Lemma Update_actor_loop_grads cols : forall i pi Q1 Q2 g (st st' : Agent) G,
  Update_actor_loop cols i pi Q1 Q2 g st = Some (G, st') ->
  exists grads,
    Update_actor_grads cols i pi Q1 Q2 st = Some (grads, st') /\
    accumulate_all i g grads = Some G.
Proof.
  induction cols as [|s cols IH]; intros i pi Q1 Q2 g st st' G Hu; cbn in Hu.
  - some_inv Hu. exists []. split; reflexivity.
  - destruct (Update_actor_sample i s pi Q1 Q2 st) as [[grad st1]|] eqn:Hs;
      [|discriminate].
    destruct (accumulate i g grad) as [g1|] eqn:Ha; [|discriminate].
    destruct (IH _ _ _ _ _ _ _ _ Hu) as (gs & Hg & Hacc).
    exists (grad :: gs). cbn. rewrite Hs, Hg, Ha. split; [reflexivity|exact Hacc].
Qed.

Lemma Update_actor_inv b (st st' : Agent) :
  Update_actor b st = Some st' ->
  exists pi qInput Q1 Q2 G st1 u p,
    as_row (Predict (policyNetwork st) (sampledStates b)) = Some pi /\
    join_vert (row_mat pi) (sampledStates b) = Some qInput /\
    as_row (Predict (learningQ1Network st) qInput) = Some Q1 /\
    as_row (Predict (learningQ2Network st) qInput) = Some Q2 /\
    Update_actor_loop (sampledStates b) 0 pi Q1 Q2 [] st = Some (G, st1) /\
    UpdaterUpdate (policyNetworkUpdater st1) (Parameters (policyNetwork st1))
      (StepSize (config st1)) G = (u, p) /\
    st' = log (CallPolicyStep (StepSize (config st1)) G)
            (set_policyNetworkUpdater u
               (set_policyNetwork (set_Parameters p (policyNetwork st1)) st1)).
Proof.
  unfold Update_actor. intros Hu.
  destruct (as_row (Predict (policyNetwork st) (sampledStates b)))
    as [pi|] eqn:Hpi; [|discriminate].
  destruct (join_vert (row_mat pi) (sampledStates b)) as [qInput|] eqn:Hq;
    [|discriminate].
  destruct (as_row (Predict (learningQ1Network st) qInput)) as [Q1|] eqn:H1;
    [|discriminate].
  destruct (as_row (Predict (learningQ2Network st) qInput)) as [Q2|] eqn:H2;
    [|discriminate].
  destruct (Update_actor_loop (sampledStates b) 0 pi Q1 Q2 [] st)
    as [[G st1]|] eqn:Hl; [|discriminate].
  destruct (UpdaterUpdate (policyNetworkUpdater st1) _ _ G) as [u p] eqn:Hup.
  some_inv Hu.
  exists pi, qInput, Q1, Q2, G, st1, u, p.
  repeat (split; [reflexivity || assumption|]). reflexivity.
Qed.

Lemma Update_critic_learned b (st st' : Agent) :
  Update_critic b st = Some st' ->
  exists P1 P2 target g1 g2,
    nextQ st b = Some target /\
    learned [CallLoss Critic1 P1 target; CallLoss Critic2 P2 target;
             CallCriticStep Critic1 (StepSize (config st)) g1;
             CallCriticStep Critic2 (StepSize (config st)) g2] st st' /\
    policyNetwork st' = policyNetwork st /\
    policyNetworkUpdater st' = policyNetworkUpdater st.
Proof.
  intros Hu. apply Update_critic_inv in Hu.
  destruct Hu as (target & vals & inp & q1 & o1 & Q1 & q2 & o2 & Q2 & q1' & g1
                  & u1 & p1 & q2' & g2 & u2 & p2 & Ht & _ & _ & _ & _ & _ & _
                  & _ & _ & _ & _ & ->).
  exists Q1, Q2, target, g1, g2. split; [exact Ht|].
  split; [|split; reflexivity].
  unfold learned. cbn. repeat (split; [reflexivity|]). reflexivity.
Qed.

Lemma Update_actor_learned b (st st' : Agent) :
  Update_actor b st = Some st' ->
  exists tr G,
    learned (tr ++ [CallPolicyStep (StepSize (config st)) G]) st st' /\
    forallb actor_backward_event tr = true /\
    length tr = n_cols (sampledStates b) /\
    qNetworkUpdater st' = qNetworkUpdater st.
Proof.
  intros Hu. apply Update_actor_inv in Hu.
  destruct Hu as (pi & qInput & Q1 & Q2 & G & st1 & u & p & _ & _ & _ & _
                  & Hl & _ & ->).
  destruct (Update_actor_loop_grads _ _ _ _ _ _ _ Hl) as (gs & Hg & _).
  destruct (Update_actor_grads_learned _ _ _ _ _ _ Hg)
    as (tr & L & F & N & Uq & _ & _).
  exists tr, G. split; [|split; [exact F|split; [exact N|exact Uq]]].
  assert (config st1 = config st) as -> by apply L.
  eapply learned_trans; [exact L|].
  unfold learned. cbn. repeat (split; [reflexivity|]). reflexivity.
Qed.

(** *** Target synchronization and the whole update *)

Lemma Update_target_inv (st st' : Agent) :
  Update_target st = Some st' ->
  TargetNetworkSyncInterval (config st) <> 0 /\
  ((totalSteps st mod TargetNetworkSyncInterval (config st) <> 0 /\ st' = st)
   \/ (totalSteps st mod TargetNetworkSyncInterval (config st) = 0 /\
       SoftUpdate (sofQ 0.005%Q) st = Some st')).
Proof.
  unfold Update_target. intros Hu.
  destruct (Nat.eqb_spec (TargetNetworkSyncInterval (config st)) 0) as [|Hn];
    [discriminate|].
  split; [exact Hn|].
  destruct (Nat.eqb_spec
              (totalSteps st mod TargetNetworkSyncInterval (config st)) 0)
    as [Hm|Hm].
  - right. split; assumption.
  - left. some_inv Hu. split; [assumption|reflexivity].
Qed.

Lemma Update_inv (st st' : Agent) :
  Update st = Some st' ->
  exists b rp w st1 st2,
    Sample (replayMethod st) (rng st) = (b, rp, w) /\
    Update_critic b
      (set_rng w (set_replayMethod rp (log (CallUpdate (totalSteps st)) st)))
      = Some st1 /\
    Update_actor b st1 = Some st2 /\
    Update_target st2 = Some st'.
Proof.
  unfold Update. cbn. intros Hu.
  destruct (Sample (replayMethod st) (rng st)) as [[b rp] w] eqn:Hs.
  destruct (Update_critic b _) as [st1|] eqn:Hc; [|discriminate].
  destruct (Update_actor b st1) as [st2|] eqn:Ha; [|discriminate].
  exists b, rp, w, st1, st2. auto.
Qed.

(** Added calls and unchanged members of one [Update]. *)
Lemma Update_trace (st st' : Agent) :
  Update st = Some st' ->
  exists b rp w P1 P2 target g1 g2 tra G,
    Sample (replayMethod st) (rng st) = (b, rp, w) /\
    nextQ st b = Some target /\
    calls st' =
      calls st ++
        CallUpdate (totalSteps st)
        :: [CallLoss Critic1 P1 target; CallLoss Critic2 P2 target;
            CallCriticStep Critic1 (StepSize (config st)) g1;
            CallCriticStep Critic2 (StepSize (config st)) g2]
        ++ tra ++ [CallPolicyStep (StepSize (config st)) G]
        ++ (if totalSteps st mod TargetNetworkSyncInterval (config st) =? 0
            then [CallSoftUpdate (sofQ 0.005%Q)] else []) /\
    forallb actor_backward_event tra = true /\
    length tra = n_cols (sampledStates b) /\
    config st' = config st /\ totalSteps st' = totalSteps st /\
    deterministic st' = deterministic st /\ state st' = state st /\
    action st' = action st /\ environment st' = environment st /\
    replayMethod st' = rp /\ rng st' = w /\
    TargetNetworkSyncInterval (config st) <> 0 /\
    (totalSteps st mod TargetNetworkSyncInterval (config st) <> 0 ->
     targetQ1Network st' = targetQ1Network st /\
     targetQ2Network st' = targetQ2Network st).
Proof.
  intros Hu.
  apply Update_inv in Hu as (b & rp & w & st1 & st2 & Hs & Hc & Ha & Ht).
  apply Update_critic_learned in Hc
    as (P1 & P2 & target & g1 & g2 & Hn & Lc & _ & _).
  apply Update_actor_learned in Ha as (tra & G & La & Fa & Na & _).
  pose proof (learned_trans Lc La) as L.
  destruct L as (L1 & L2 & L3 & L4 & L5 & L6 & L7 & L8 & L9 & L10 & L11).
  cbn in L1, L2, L3, L4, L5, L6, L7, L8, L9, L10, L11.
  assert (config st1 = config st) as Hc1 by apply Lc.
  rewrite Hc1 in L11.
  exists b, rp, w, P1, P2, target, g1, g2, tra, G.
  split; [exact Hs|]. split; [exact Hn|].
  apply Update_target_inv in Ht as (Hi & [[Hm ->]|[Hm Hsoft]]).
  - rewrite L1, L2 in Hm. rewrite L1 in Hi.
    destruct (Nat.eqb_spec
                (totalSteps st mod TargetNetworkSyncInterval (config st)) 0)
      as [Hz|_]; [contradiction|].
    split.
    { rewrite L11, app_nil_r. repeat (cbn; rewrite <- app_assoc). reflexivity. }
    repeat (split; [reflexivity || assumption|]). auto.
  - rewrite L1, L2 in Hm. rewrite L1 in Hi.
    apply SoftUpdate_inv in Hsoft as (p1 & p2 & _ & _ & ->).
    rewrite Hm. cbn. split.
    { rewrite L11. repeat (cbn; rewrite <- app_assoc). reflexivity. }
    repeat (split; [reflexivity || assumption|]).
    all: try congruence.
Qed.

(** *** Accumulation of the policy gradient *)

Lemma accumulate_all_entry_S grads : forall i g G r c v,
  accumulate_all (S i) g grads = Some G -> entry G r c = Some v ->
  exists v0 es,
    entry g r c = Some v0 /\
    mapM (fun x : mat T => entry x r c) grads = Some es /\
    v = fold_left sadd es v0.
Proof.
  induction grads as [|x xs IH]; intros i g G r c v Ha Hv;
    cbn [accumulate_all] in Ha.
  - some_inv Ha. exists v, []. auto.
  - unfold accumulate in Ha. cbn [Nat.eqb] in Ha.
    destruct (mat_add g x) as [g1|] eqn:Hadd; [|discriminate].
    destruct (IH _ _ _ _ _ _ Ha Hv) as (v1 & es & H1 & Hm & ->).
    destruct (mat_add_entry_inv _ _ _ _ Hadd H1) as (a & b & Hga & Hxb & ->).
    exists a, (b :: es). cbn [mapM]. rewrite Hxb, Hm. auto.
Qed.

(** From an empty gradient, every entry of the result is the sum, from
    0.0 and in the order of the samples, of the entries of the per-sample
    gradients: nothing is divided by the number of samples. *)
Lemma accumulate_all_entry grads G r c v :
  accumulate_all 0 [] grads = Some G -> entry G r c = Some v ->
  exists es,
    mapM (fun x : mat T => entry x r c) grads = Some es /\
    v = fold_left sadd es (sofQ 0%Q).
Proof.
  destruct grads as [|x xs]; cbn [accumulate_all]; intros Ha Hv.
  - some_inv Ha. unfold entry in Hv. destruct c; discriminate.
  - unfold accumulate in Ha. cbn [Nat.eqb] in Ha.
    destruct (mat_add (filled_like x (sofQ 0%Q)) x) as [g1|] eqn:Hadd;
      [|discriminate].
    eapply accumulate_all_entry_S in Hv; [|exact Ha].
    destruct Hv as (v1 & es & H1 & Hm & ->).
    destruct (mat_add_entry_inv _ _ _ _ Hadd H1) as (a & b & Hga & Hxb & ->).
    rewrite filled_like_entry, Hxb in Hga. cbn in Hga. some_inv Hga.
    exists (b :: es). cbn [mapM]. rewrite Hxb, Hm. auto.
Qed.

(** *** The bootstrapped target *)

Lemma bootstrap_spec discount (rs : list T) ts Q1 Q2 tq :
  bootstrap discount rs ts Q1 Q2 = Some tq ->
  length tq = length rs /\ length Q1 = length tq /\ length Q2 = length tq /\
  length ts = length tq /\
  forall i r t q1 q2,
    nth_error rs i = Some r -> nth_error ts i = Some t ->
    nth_error Q1 i = Some q1 -> nth_error Q2 i = Some q2 ->
    nth_error tq i =
      Some (sadd r (smul (smul discount (sofZ (1 - t)%Z)) (smin q1 q2))).
Proof.
  unfold bootstrap. intros Hb.
  destruct (zip_exact smin Q1 Q2) as [m|] eqn:Hm; [|discriminate].
  destruct (zip_exact smul _ m) as [p|] eqn:Hp; [|discriminate].
  destruct (zipM_length _ _ _ Hm) as [Lm1 Lm2].
  destruct (zipM_length _ _ _ Hp) as [Lp1 Lp2].
  destruct (zipM_length _ _ _ Hb) as [Lb1 Lb2].
  rewrite length_map in Lp1, Lp2.
  repeat split; try congruence.
  intros i r t q1 q2 Hr Ht H1 H2.
  eapply zip_exact_nth; [exact Hb|exact Hr|].
  eapply zip_exact_nth; [exact Hp| |].
  - rewrite nth_error_map, Ht. reflexivity.
  - eapply zip_exact_nth; eassumption.
Qed.

(** *** Calls of one kind among calls of another *)

Lemma actor_backward_events_only (tr : list (Event T St)) :
  forallb actor_backward_event tr = true ->
  losses_of tr = [] /\ updates_of tr = [] /\ rewards_of tr = [] /\
  soft_updates_of tr = [] /\ policy_steps_of tr = [] /\
  filter interaction tr = [].
Proof.
  induction tr as [|e tr IH]; cbn; [repeat split|].
  intros Hf. apply andb_prop in Hf as [He Htr].
  destruct (IH Htr) as (I1 & I2 & I3 & I4 & I5 & I6).
  destruct e; try discriminate; cbn; repeat split; assumption.
Qed.

(** *** Action selection *)

Lemma set_first_inv (v : T) (x y : list T) :
  set_first v x = Some y -> exists h tl, x = h :: tl /\ y = v :: tl.
Proof.
  destruct x as [|h tl]; cbn; intros Hs; [discriminate|].
  some_inv Hs. eauto.
Qed.

Lemma exploration_noise_inv (w : W) :
  exists u w',
    randu1 w = (u, w') /\
    exploration_noise w =
      ([clamp (sneg (sofQ 0.25%Q)) (sofQ 0.25%Q) (smul u (sofQ 0.1%Q))], w').
Proof.
  unfold exploration_noise. cbn.
  destruct (randu1 w) as [u w']. exists u, w'. split; reflexivity.
Qed.

(** In deterministic mode: component 0 of the action becomes component 0 of
    the policy output, nothing is drawn and nothing else changes. *)
Lemma SelectAction_deterministic_inv (st st' : Agent) :
  deterministic st = true -> SelectAction st = Some st' ->
  exists out a0 h tl,
    as_row (Predict (policyNetwork st) [Encode (state st)]) = Some out /\
    nth_error out 0 = Some a0 /\
    action st = h :: tl /\
    st' = set_action (a0 :: tl) (set_rng (rng st) st).
Proof.
  unfold SelectAction. intros Hd Hs. rewrite Hd in Hs. cbn [negb] in Hs.
  destruct (as_row _) as [out|] eqn:Ho; [|discriminate].
  destruct (nth_error out 0) as [a0|] eqn:Ha; [|discriminate].
  destruct (set_first a0 (action st)) as [a|] eqn:Hf; [|discriminate].
  some_inv Hs. apply set_first_inv in Hf as (h & tl & Hx & ->).
  exists out, a0, h, tl. auto.
Qed.

(** Otherwise: the policy output must be one scalar; one value is drawn,
    scaled by 0.1, clamped to [-0.25, 0.25] and added to it. *)
Lemma SelectAction_exploring_inv (st st' : Agent) :
  deterministic st = false -> SelectAction st = Some st' ->
  exists o u w h tl,
    as_row (Predict (policyNetwork st) [Encode (state st)]) = Some [o] /\
    randu1 (rng st) = (u, w) /\
    action st = h :: tl /\
    st' = set_action
            (sadd o (clamp (sneg (sofQ 0.25%Q)) (sofQ 0.25%Q)
                       (smul u (sofQ 0.1%Q))) :: tl)
            (set_rng w st).
Proof.
  unfold SelectAction. intros Hd Hs. rewrite Hd in Hs. cbn [negb] in Hs.
  destruct (as_row _) as [out|] eqn:Ho; [|discriminate].
  destruct (exploration_noise_inv (rng st)) as (u & w & Hr & Hn).
  rewrite Hn in Hs.
  destruct out as [|o [|o' out]]; cbn in Hs; try discriminate.
  destruct (set_first _ (action st)) as [a|] eqn:Hf; [|discriminate].
  some_inv Hs. apply set_first_inv in Hf as (h & tl & Hx & ->).
  exists o, u, w, h, tl. auto.
Qed.

(** [SelectAction] changes the action and the generator only, and keeps the
    size of the action. *)
Lemma SelectAction_frame (st st' : Agent) :
  SelectAction st = Some st' ->
  exists a w, st' = set_action a (set_rng w st) /\
              length a = length (action st).
Proof.
  intros Hs. destruct (deterministic st) eqn:Hd.
  - apply SelectAction_deterministic_inv in Hs as (out & a0 & h & tl & _ & _ & Hx & ->);
      [|exact Hd].
    eexists _, _. split; [reflexivity|]. rewrite Hx. reflexivity.
  - apply SelectAction_exploring_inv in Hs as (o & u & w & h & tl & _ & _ & Hx & ->);
      [|exact Hd].
    eexists _, _. split; [reflexivity|]. rewrite Hx. reflexivity.
Qed.

(** *** One iteration of the episode loop *)

Lemma Episode_body_eq (st : Agent) steps ret :
  Episode_body st steps ret =
    (sa <- SelectAction st ;;
     let '(r, s', env, w) :=
       EnvSample (environment sa) (rng sa) (state sa) (action sa) in
     if skips_learning sa
     then Some (interacted sa r s' env w, S steps, sadd ret r)
     else st' <- Update (interacted sa r s' env w) ;;
          Some (st', S steps, sadd ret r)).
Proof.
  unfold Episode_body. destruct (SelectAction st) as [sa|]; [|reflexivity].
  destruct (EnvSample (environment sa) (rng sa) (state sa) (action sa))
    as [[[r s'] env] w].
  reflexivity.
Qed.

Lemma Episode_body_inv (st st' : Agent) steps ret steps' ret' :
  Episode_body st steps ret = Some (st', steps', ret') ->
  exists sa r s' env w,
    SelectAction st = Some sa /\
    EnvSample (environment sa) (rng sa) (state sa) (action sa)
      = (r, s', env, w) /\
    steps' = S steps /\ ret' = sadd ret r /\
    ((skips_learning sa = true /\ st' = interacted sa r s' env w) \/
     (skips_learning sa = false /\
      Update (interacted sa r s' env w) = Some st')).
Proof.
  rewrite Episode_body_eq. intros Hb.
  destruct (SelectAction st) as [sa|] eqn:Hs; [|discriminate].
  destruct (EnvSample (environment sa) (rng sa) (state sa) (action sa))
    as [[[r s'] env] w] eqn:He.
  exists sa, r, s', env, w.
  destruct (skips_learning sa) eqn:Hg.
  - some_inv Hb. repeat (split; [reflexivity || assumption|]).
    left. split; reflexivity.
  - destruct (Update (interacted sa r s' env w)) as [su|] eqn:Hu;
      [|discriminate].
    some_inv Hb. repeat (split; [reflexivity || assumption|]).
    right. split; reflexivity.
Qed.

(** What one iteration adds to the call log and what it leaves alone. *)
Lemma Episode_body_summary (st st' : Agent) steps ret steps' ret' :
  Episode_body st steps ret = Some (st', steps', ret') ->
  exists sa r s' w tr,
    SelectAction st = Some sa /\
    EnvSample (environment st) (rng sa) (state st) (action sa)
      = (r, s', environment st', w) /\
    calls st' =
      calls st ++
        CallEnvSample (state st) (action sa) r s'
        :: CallStore (state st) (action sa) r s'
             (IsTerminal (environment st') s') (Discount (config st))
        :: tr /\
    steps' = S steps /\ ret' = sadd ret r /\
    totalSteps st' = S (totalSteps st) /\ config st' = config st /\
    deterministic st' = deterministic st /\ state st' = s' /\
    action st' = action sa /\
    rewards_of tr = [] /\ filter interaction tr = [] /\
    updates_of tr =
      (if skips_learning st then [] else [S (totalSteps st)]) /\
    soft_updates_of tr =
      (if skips_learning st then []
       else if S (totalSteps st) mod TargetNetworkSyncInterval (config st) =? 0
            then [sofQ 0.005%Q] else []) /\
    (skips_learning st = true \/
     S (totalSteps st) mod TargetNetworkSyncInterval (config st) <> 0 ->
     targetQ1Network st' = targetQ1Network st /\
     targetQ2Network st' = targetQ2Network st) /\
    (skips_learning st = true ->
     tr = [] /\
     learningQ1Network st' = learningQ1Network st /\
     learningQ2Network st' = learningQ2Network st /\
     policyNetwork st' = policyNetwork st /\
     qNetworkUpdater st' = qNetworkUpdater st /\
     policyNetworkUpdater st' = policyNetworkUpdater st /\
     rng st' = w /\
     replayMethod st' =
       Store (replayMethod st) (state st) (action sa) r s'
         (IsTerminal (environment st') s') (Discount (config st))).
Proof.
  intros Hb.
  apply Episode_body_inv in Hb
    as (sa & r & s' & env & w & Hs & He & -> & -> & Hcases).
  pose proof (SelectAction_frame _ Hs) as (a & w0 & Hsa & _).
  assert (skips_learning sa = skips_learning st) as Hg by (subst sa; reflexivity).
  rewrite Hg in Hcases.
  assert (environment sa = environment st /\ state sa = state st /\
          calls sa = calls st /\ config sa = config st /\
          totalSteps sa = totalSteps st /\ replayMethod sa = replayMethod st /\
          deterministic sa = deterministic st /\
          targetQ1Network sa = targetQ1Network st /\
          targetQ2Network sa = targetQ2Network st /\
          learningQ1Network sa = learningQ1Network st /\
          learningQ2Network sa = learningQ2Network st /\
          policyNetwork sa = policyNetwork st /\
          qNetworkUpdater sa = qNetworkUpdater st /\
          policyNetworkUpdater sa = policyNetworkUpdater st)
    as (F1 & F2 & F3 & F4 & F5 & F6 & F7 & F8 & F9 & F10 & F11 & F12 & F13 & F14)
    by (subst sa; repeat split).
  rewrite F1, F2 in He.
  destruct Hcases as [[Hskip ->]|[Hskip Hu]].
  - exists sa, r, s', w, []. rewrite Hskip. unfold interacted. cbn.
    rewrite F2, F3, F4, F5, F6, F7, F8, F9, F10, F11, F12, F13, F14.
    split; [exact Hs|]. split; [exact He|].
    split; [rewrite <- app_assoc; reflexivity|].
    repeat (split; [reflexivity|]).
    split; [intros _; split; reflexivity|].
    intros _. repeat split.
  - apply Update_trace in Hu
      as (b & rp & w' & P1 & P2 & target & g1 & g2 & tra & G & _ & _ & Hc & Fa
          & _ & U1 & U2 & U3 & U4 & U5 & U6 & _ & _ & Hi & Ht).
    unfold interacted in Hc, U1, U2, U3, U4, U5, U6, Hi, Ht. cbn in *.
    rewrite F4 in *. rewrite F5 in *. rewrite F2, F3 in Hc.
    rewrite U6 in *.
    eexists sa, r, s', w, _. rewrite Hskip.
    split; [exact Hs|]. split; [exact He|].
    split.
    { rewrite Hc. repeat (cbn; rewrite <- app_assoc). cbn. reflexivity. }
    apply actor_backward_events_only in Fa as (A1 & A2 & A3 & A4 & A5 & A6).
    repeat (split; [reflexivity || congruence|]).
    split.
    { unfold rewards_of in *. cbn. rewrite !flat_map_app, A3. cbn.
      destruct (_ =? 0); reflexivity. }
    split.
    { cbn. rewrite !filter_app, A6. cbn. destruct (_ =? 0); reflexivity. }
    split.
    { unfold updates_of in *. cbn. rewrite !flat_map_app, A2. cbn.
      destruct (_ =? 0); reflexivity. }
    split.
    { unfold soft_updates_of in *. cbn. rewrite !flat_map_app, A4. cbn.
      destruct (_ =? 0); reflexivity. }
    split.
    { intros [Hf|Hm]; [discriminate|].
      destruct (Ht Hm) as [T1 T2]. split; congruence. }
    intros Hf. discriminate.
Qed.

(** *** The episode loop *)

Lemma Episode_loop_inv fuel (st st' : Agent) steps ret ret' :
  Episode_loop (S fuel) st steps ret = Done (st', ret') ->
  (st' = st /\ ret' = ret /\
   (IsTerminal (environment st) (state st) = true \/
    (StepLimit (config st) <> 0 /\ StepLimit (config st) <= steps)))
  \/ (IsTerminal (environment st) (state st) = false /\
      (StepLimit (config st) = 0 \/ steps < StepLimit (config st)) /\
      exists st1 ret1,
        Episode_body st steps ret = Some (st1, S steps, ret1) /\
        Episode_loop fuel st1 (S steps) ret1 = Done (st', ret')).
Proof.
  cbn [Episode_loop]. intros Hl.
  destruct (IsTerminal (environment st) (state st)) eqn:Ht.
  { injection Hl as <- <-. left. auto. }
  destruct (Nat.eqb_spec (StepLimit (config st)) 0) as [Hz|Hz];
    destruct (Nat.leb_spec (StepLimit (config st)) steps) as [Hle|Hlt];
    cbn [negb andb] in Hl.
  1, 2, 4:
    right; split; [reflexivity|]; split; [lia|];
    destruct (Episode_body st steps ret) as [[[st1 steps1] ret1]|] eqn:Hb;
      [|discriminate];
    pose proof Hb as Hb';
    apply Episode_body_inv in Hb' as (_ & _ & _ & _ & _ & _ & _ & -> & _);
    exists st1, ret1; split; [reflexivity|exact Hl].
  injection Hl as <- <-. left. repeat split. right. split; assumption.
Qed.

(** Counters, return and learning calls of a loop run that has returned
    after [n] iterations. *)
Lemma Episode_loop_summary fuel : forall (st st' : Agent) steps ret ret',
  Episode_loop fuel st steps ret = Done (st', ret') ->
  exists n tr,
    calls st' = calls st ++ tr /\
    totalSteps st' = totalSteps st + n /\
    config st' = config st /\
    deterministic st' = deterministic st /\
    length (rewards_of tr) = n /\
    ret' = fold_left sadd (rewards_of tr) ret /\
    length (filter interaction tr) = 2 * n /\
    updates_of tr =
      (if deterministic st then []
       else filter (fun k => ExplorationSteps (config st) <=? k)
              (seq (S (totalSteps st)) n)) /\
    soft_updates_of tr =
      map (fun _ => sofQ 0.005%Q)
        (filter (fun k => k mod TargetNetworkSyncInterval (config st) =? 0)
           (updates_of tr)) /\
    (IsTerminal (environment st') (state st') = true \/
     (StepLimit (config st) <> 0 /\ StepLimit (config st) <= steps + n)) /\
    (steps <= StepLimit (config st) -> StepLimit (config st) <> 0 ->
     steps + n <= StepLimit (config st)).
Proof.
  induction fuel as [|fuel IH]; intros st st' steps ret ret' Hl;
    [discriminate|].
  apply Episode_loop_inv in Hl
    as [(-> & -> & Hexit)|(Ht & Hlim & st1 & ret1 & Hb & Hl)].
  - exists 0, []. rewrite app_nil_r, !Nat.add_0_r. cbn.
    repeat (split; [reflexivity|]).
    split; [destruct (deterministic st); reflexivity|].
    split; [reflexivity|]. split; [exact Hexit|]. auto.
  - apply Episode_body_summary in Hb
      as (sa & r & s' & w & tr0 & _ & _ & Hc & _ & -> & Hts & Hcf & Hdet & _ & _
          & Hr0 & Hi0 & Hu0 & Hs0 & _).
    apply IH in Hl
      as (n & tr & Hc1 & Hts1 & Hcf1 & Hdet1 & Hr1 & -> & Hi1 & Hu1 & Hs1
          & Hexit & Hbound).
    rewrite Hcf in *. rewrite Hdet in *. rewrite Hts in *.
    exists (S n). eexists.
    split; [rewrite Hc1, Hc, <- app_assoc; reflexivity|].
    split; [lia|]. split; [exact Hcf1|]. split; [exact Hdet1|].
    assert (rewards_of
              ((CallEnvSample (state st) (action sa) r s'
                :: CallStore (state st) (action sa) r s'
                     (IsTerminal (environment st1) s') (Discount (config st))
                :: tr0) ++ tr) = r :: rewards_of tr) as Hrw.
    { unfold rewards_of in *. rewrite flat_map_app. cbn. rewrite Hr0.
      reflexivity. }
    rewrite Hrw.
    split; [cbn; congruence|]. split; [reflexivity|].
    split.
    { rewrite filter_app. cbn. rewrite Hi0. cbn. rewrite Hi1. lia. }
    assert (updates_of
              ((CallEnvSample (state st) (action sa) r s'
                :: CallStore (state st) (action sa) r s'
                     (IsTerminal (environment st1) s') (Discount (config st))
                :: tr0) ++ tr) = updates_of tr0 ++ updates_of tr) as Huw.
    { unfold updates_of. rewrite flat_map_app. reflexivity. }
    rewrite Huw.
    split.
    { rewrite Hu0, Hu1. unfold skips_learning.
      destruct (deterministic st); [reflexivity|]. cbn [orb seq filter].
      rewrite Nat.ltb_antisym.
      destruct (ExplorationSteps (config st) <=? S (totalSteps st));
        reflexivity. }
    split.
    { assert (soft_updates_of
                ((CallEnvSample (state st) (action sa) r s'
                  :: CallStore (state st) (action sa) r s'
                       (IsTerminal (environment st1) s')
                       (Discount (config st))
                  :: tr0) ++ tr) = soft_updates_of tr0 ++ soft_updates_of tr)
        as Hsw by (unfold soft_updates_of; rewrite flat_map_app; reflexivity).
      rewrite Hsw, filter_app, map_app, Hs1. f_equal.
      rewrite Hs0, Hu0.
      destruct (skips_learning st); [reflexivity|]. cbn.
      destruct (_ =? 0); reflexivity. }
    split.
    { destruct Hexit as [He|[He1 He2]]; [left; exact He|right; split; lia]. }
    intros Hle Hnz. lia.
Qed.

(** Without a soft update the target critics are what they were; in
    deterministic mode so is every network and every updater. *)
Lemma Episode_loop_targets fuel : forall (st st' : Agent) steps ret ret',
  Episode_loop fuel st steps ret = Done (st', ret') ->
  exists tr,
    calls st' = calls st ++ tr /\
    (soft_updates_of tr = [] ->
     targetQ1Network st' = targetQ1Network st /\
     targetQ2Network st' = targetQ2Network st) /\
    (deterministic st = true ->
     learningQ1Network st' = learningQ1Network st /\
     learningQ2Network st' = learningQ2Network st /\
     policyNetwork st' = policyNetwork st /\
     qNetworkUpdater st' = qNetworkUpdater st /\
     policyNetworkUpdater st' = policyNetworkUpdater st /\
     targetQ1Network st' = targetQ1Network st /\
     targetQ2Network st' = targetQ2Network st).
Proof.
  induction fuel as [|fuel IH]; intros st st' steps ret ret' Hl;
    [discriminate|].
  apply Episode_loop_inv in Hl
    as [(-> & -> & Hexit)|(Ht & Hlim & st1 & ret1 & Hb & Hl)].
  - exists []. rewrite app_nil_r. repeat split.
  - apply Episode_body_summary in Hb
      as (sa & r & s' & w & tr0 & _ & _ & Hc & _ & _ & Hts & Hcf & Hdet & _ & _
          & _ & _ & _ & Hs0 & Htg & Hskip).
    apply IH in Hl as (tr & Hc1 & Htg1 & Hd1).
    eexists. split; [rewrite Hc1, Hc, <- app_assoc; reflexivity|]. split.
    + intros Hsoft. unfold soft_updates_of in Hsoft.
      rewrite flat_map_app in Hsoft. apply app_eq_nil in Hsoft as [H0 H1].
      cbn in H0. fold (soft_updates_of tr0) in H0.
      destruct (Htg1 H1) as [T1 T2].
      assert (targetQ1Network st1 = targetQ1Network st /\
              targetQ2Network st1 = targetQ2Network st) as [T3 T4].
      { apply Htg. rewrite Hs0 in H0.
        destruct (skips_learning st); [left; reflexivity|right].
        destruct (Nat.eqb_spec
                    (S (totalSteps st) mod
                     TargetNetworkSyncInterval (config st)) 0);
          [discriminate|assumption]. }
      split; congruence.
    + intros Hd.
      assert (skips_learning st = true) as Hsk
        by (unfold skips_learning; rewrite Hd; reflexivity).
      destruct (Hskip Hsk) as (_ & S1 & S2 & S3 & S4 & S5 & _).
      destruct (Htg (or_introl Hsk)) as [T3 T4].
      rewrite Hdet in Hd1. destruct (Hd1 Hd) as (D1 & D2 & D3 & D4 & D5 & D6 & D7).
      repeat split; congruence.
Qed.

(** The environment steps and stores of a loop run, in order. *)
Lemma Episode_loop_interactions fuel : forall (st st' : Agent) steps ret ret',
  Episode_loop fuel st steps ret = Done (st', ret') ->
  exists tr xs,
    calls st' = calls st ++ tr /\
    filter interaction tr = flat_map (step_calls (Discount (config st))) xs /\
    chained (state st) xs /\
    state st' = fold_left (fun _ x => step_next x) xs (state st) /\
    terminal_flags (IsTerminal (environment st') (state st')) xs /\
    ((xs = [] /\ st' = st) \/
     (xs <> [] /\ IsTerminal (environment st) (state st) = false)).
Proof.
  induction fuel as [|fuel IH]; intros st st' steps ret ret' Hl;
    [discriminate|].
  apply Episode_loop_inv in Hl
    as [(-> & -> & Hexit)|(Ht & Hlim & st1 & ret1 & Hb & Hl)].
  - exists [], []. rewrite app_nil_r. cbn. repeat split. left. auto.
  - apply Episode_body_summary in Hb
      as (sa & r & s' & w & tr0 & _ & _ & Hc & _ & _ & Hts & Hcf & Hdet & Hst
          & _ & _ & Hi0 & _).
    apply IH in Hl as (tr & xs & Hc1 & Hi1 & Hch & Hfin & Hfl & Hcase).
    rewrite Hcf in Hi1. rewrite Hst in Hch, Hfin.
    exists ((CallEnvSample (state st) (action sa) r s'
              :: CallStore (state st) (action sa) r s'
                   (IsTerminal (environment st1) s') (Discount (config st))
              :: tr0) ++ tr),
      ((state st, action sa, r, s', IsTerminal (environment st1) s') :: xs).
    split; [rewrite Hc1, Hc, <- app_assoc; reflexivity|].
    split; [rewrite filter_app; cbn; rewrite Hi0, Hi1; reflexivity|].
    split; [cbn; split; [reflexivity|exact Hch]|].
    split; [cbn; exact Hfin|].
    split.
    + cbn [terminal_flags]. destruct Hcase as [[-> ->]|[Hne Hnt]].
      * cbn. rewrite Hst. reflexivity.
      * destruct xs as [|x xs]; [congruence|].
        split; [cbn; rewrite Hst in Hnt; exact Hnt|exact Hfl].
    + right. split; [discriminate|exact Ht].
Qed.

(** With a step limit the loop returns or faults within the limit. *)
Lemma Episode_loop_fuel fuel : forall (st : Agent) steps ret,
  StepLimit (config st) <> 0 -> steps <= StepLimit (config st) ->
  StepLimit (config st) - steps < fuel ->
  Episode_loop fuel st steps ret <> OutOfFuel.
Proof.
  induction fuel as [|fuel IH]; intros st steps ret Hnz Hle Hf; [lia|].
  cbn [Episode_loop].
  destruct (IsTerminal (environment st) (state st)); [discriminate|].
  destruct (Nat.eqb_spec (StepLimit (config st)) 0) as [Hz|_];
    [contradiction|].
  destruct (Nat.leb_spec (StepLimit (config st)) steps) as [Hge|Hlt];
    cbn [negb andb]; [discriminate|].
  destruct (Episode_body st steps ret) as [[[st1 steps1] ret1]|] eqn:Hb;
    [|discriminate].
  apply Episode_body_summary in Hb
    as (sa & r & s' & w & tr0 & _ & _ & _ & -> & _ & _ & Hcf & _).
  apply IH; rewrite Hcf; lia.
Qed.

Lemma Episode_eq fuel (st : Agent) :
  exists s0 env w,
    InitialSample (environment st) (rng st) = (s0, env, w) /\
    Episode fuel st =
      Episode_loop fuel (set_state s0 (set_rng w (set_environment env st)))
        0 (sofQ 0%Q).
Proof.
  unfold Episode.
  destruct (InitialSample (environment st) (rng st)) as [[s0 env] w].
  exists s0, env, w. split; reflexivity.
Qed.
End AgentFacts.

(** ** Target network initialization and synchronization *)

(** C10.  Right after construction each target critic is the copy of its
    learning critic: target 1 of critic 1 and target 2 of critic 2, parameter
    blocks included; no step has been counted and no call has been made. *)
Theorem targets_start_as_copies :
  forall (T W QL PL U R E St : Type) (QN : Network T W QL)
    (PN : Network T W PL) (UP : Updater T U) (EN : Environment T W E St)
    (cfg : TrainingConfig T) (q1 : Net T QL) (pol : Net T PL) (rp : R)
    (qu pu : U) (env : E) (w : W),
    let a : SAC T W QL PL U R E St := SAC_new cfg q1 pol rp qu pu env w in
    targetQ1Network a = learningQ1Network a /\
    targetQ2Network a = learningQ2Network a /\
    Parameters (targetQ1Network a) = Parameters (learningQ1Network a) /\
    Parameters (targetQ2Network a) = Parameters (learningQ2Network a) /\
    totalSteps a = 0 /\ calls a = [].
Proof.
  intros. subst a. unfold SAC_new.
  destruct (if is_empty (Parameters q1) then ResetParameters q1 w else (q1, w))
    as [q1' w1].
  destruct (ResetParameters q1' w1) as [q2' w2].
  destruct (if is_empty (Parameters pol) then ResetParameters pol w2
            else (pol, w2)) as [pol' w3].
  cbn. repeat split.
Qed.

(** The scalar case of the soft update: target 1.0, learning 2.0. *)
Definition scalar_case {T : Type} `{Scalar T} :
    SAC T nat (LinearLayers T) (LinearLayers T) (Momentum T)
        (list (Transition T T)) unit T :=
  {| config := mkConfig (sofQ 0.9%Q) (sofQ 0.1%Q) 0 0 1;
     learningQ1Network := mkNet [[sofQ 2.0%Q]] (mkLinear 1 None);
     learningQ2Network := mkNet [[sofQ 2.0%Q]] (mkLinear 1 None);
     targetQ1Network := mkNet [[sofQ 1.0%Q]] (mkLinear 1 None);
     targetQ2Network := mkNet [[sofQ 1.0%Q]] (mkLinear 1 None);
     policyNetwork := mkNet [[sofQ 1.0%Q]] (mkLinear 1 None);
     replayMethod := [];
     qNetworkUpdater := mkMomentum (sofQ 0%Q) [];
     policyNetworkUpdater := mkMomentum (sofQ 0%Q) [];
     environment := tt;
     totalSteps := 0;
     state := sofQ 0%Q;
     action := [sofQ 0%Q];
     deterministic := false;
     rng := 0;
     calls := [] |}.

(** C2.  [SoftUpdate rho] replaces every entry of each target critic's
    parameter block by (1 - rho) * old target entry + rho * learning entry of
    the corresponding critic, pair 1 and pair 2 separately, and leaves the
    learning critics as they are; it returns whenever the blocks of each pair
    have the same shape.  With rho = 0.005, target 1.0 and learning 2.0 the
    new target is 1.005, in exact arithmetic and in binary64. *)
Theorem SoftUpdate_interpolates :
  (forall (T W QL PL U R E St : Type) (ST : Scalar T) (rho : T)
      (st st' : SAC T W QL PL U R E St),
      SoftUpdate rho st = Some st' ->
      interpolates rho (Parameters (targetQ1Network st))
        (Parameters (learningQ1Network st))
        (Parameters (targetQ1Network st')) /\
      interpolates rho (Parameters (targetQ2Network st))
        (Parameters (learningQ2Network st))
        (Parameters (targetQ2Network st')) /\
      learningQ1Network st' = learningQ1Network st /\
      learningQ2Network st' = learningQ2Network st /\
      layers (targetQ1Network st') = layers (targetQ1Network st) /\
      layers (targetQ2Network st') = layers (targetQ2Network st))
  /\ (forall (T W QL PL U R E St : Type) (ST : Scalar T) (rho : T)
      (st : SAC T W QL PL U R E St),
      map (@length T) (Parameters (targetQ1Network st)) =
        map (@length T) (Parameters (learningQ1Network st)) ->
      map (@length T) (Parameters (targetQ2Network st)) =
        map (@length T) (Parameters (learningQ2Network st)) ->
      exists st', SoftUpdate rho st = Some st')
  /\ (exists st', SoftUpdate (sofQ 0.005%Q) (@scalar_case Q _) = Some st' /\
        Parameters (targetQ1Network st') = [[sofQ 1.005%Q]] /\
        Parameters (targetQ2Network st') = [[sofQ 1.005%Q]])
  /\ (exists st', SoftUpdate (sofQ 0.005%Q) (@scalar_case float _) = Some st' /\
        Parameters (targetQ1Network st') = [[sofQ 1.005%Q]] /\
        Parameters (targetQ2Network st') = [[sofQ 1.005%Q]]).
Proof.
  split; [|split; [|split]].
  - intros * E. destruct (SoftUpdate_inv _ _ E) as (p1 & p2 & E1 & E2 & ->).
    cbn. repeat split; try (apply soft_mix_interpolates; assumption).
    + apply (soft_mix_interpolates _ _ _ E1).
    + apply (soft_mix_interpolates _ _ _ E1).
    + apply (soft_mix_interpolates _ _ _ E2).
    + apply (soft_mix_interpolates _ _ _ E2).
  - intros * L1 L2. unfold SoftUpdate. cbn.
    destruct (soft_mix_total rho _ _ L1) as [p1 E1]. rewrite E1.
    destruct (soft_mix_total rho _ _ L2) as [p2 E2]. rewrite E2. eauto.
  - eexists. split; [vm_compute; reflexivity|]. split; vm_compute; reflexivity.
  - eexists. split; [vm_compute; reflexivity|]. split; vm_compute; reflexivity.
Qed.

(** The scalar case through the general statement: the entry of the new
    target is the interpolation of 1 and 2 at 0.005, that is 201/200. *)
Lemma SoftUpdate_interpolates_witness :
  exists st',
    SoftUpdate (sofQ 0.005%Q) (@scalar_case Q _) = Some st' /\
    entry (Parameters (targetQ1Network st')) 0 0 = Some (201 # 200)%Q.
Proof.
  assert (exists st', SoftUpdate (sofQ 0.005%Q) (@scalar_case Q _) = Some st')
    as [st' E] by (eexists; vm_compute; reflexivity).
  exists st'. split; [exact E|].
  destruct (proj1 SoftUpdate_interpolates _ _ _ _ _ _ _ _ _ _ _ _ E)
    as [[I _] _].
  exact (I 0 0 (sofQ 1.0%Q) (sofQ 2.0%Q) eq_refl eq_refl).
Defined.

(** ** The critic update *)


(** ** Further properties of the agent's functions *)

Section Properties.
Variables T W QL PL U R E St : Type.
Context {ST : Scalar T} {QN : Network T W QL} {PN : Network T W PL}
        {UP : Updater T U} {LF : Loss T} {RN : Random T W}
        {EN : Environment T W E St} {RP : Replay T W R St}.

Abbreviation AgentP := (SAC T W QL PL U R E St).

Lemma soft_mix_shape rho (old learning new : mat T) :
  soft_mix rho old learning = Some new ->
  map (@length T) old = map (@length T) learning.
Proof.
  unfold soft_mix, mat_add, scale. revert learning new.
  induction old as [|c old IH]; intros [|d learning] new Hm; cbn in Hm;
    try discriminate; [reflexivity|].
  destruct (zip_exact sadd _ _) as [r|] eqn:Hr; [|discriminate].
  destruct (zipM (zip_exact sadd) _ _) as [rest|] eqn:Hrest; [|discriminate].
  apply zipM_length in Hr as [Hl _]. rewrite !length_map in Hl.
  cbn. f_equal; [exact Hl|]. eapply IH. exact Hrest.
Qed.

(** [SoftUpdate] returns exactly when, in each of the two pairs, the
    parameter block of the target has the shape of the block of the learning
    critic; with a column too many or a column of another height it faults. *)
Theorem SoftUpdate_returns_iff_same_shape (rho : T) (st : AgentP) :
  (exists st', SoftUpdate rho st = Some st') <->
  (map (@length T) (Parameters (targetQ1Network st)) =
     map (@length T) (Parameters (learningQ1Network st)) /\
   map (@length T) (Parameters (targetQ2Network st)) =
     map (@length T) (Parameters (learningQ2Network st))).
Proof.
  split.
  - intros [st' Hs]. apply SoftUpdate_inv in Hs as (p1 & p2 & H1 & H2 & _).
    split; eapply soft_mix_shape; eassumption.
  - intros [L1 L2]. unfold SoftUpdate. cbn.
    destruct (soft_mix_total rho _ _ L1) as [p1 H1]. rewrite H1.
    destruct (soft_mix_total rho _ _ L2) as [p2 H2]. rewrite H2. eauto.
Qed.

(** With a synchronization interval of 0 the test of [Update] divides by
    zero: no learning update returns, whatever the batch. *)
Theorem Update_faults_without_sync_interval (st : AgentP) :
  TargetNetworkSyncInterval (config st) = 0 -> Update st = None.
Proof.
  intros Hz. destruct (Update st) as [st'|] eqn:Hu; [|reflexivity].
  apply Update_trace in Hu
    as (b & rp & w & P1 & P2 & target & g1 & g2 & tra & G & _ & _ & _ & _ & _
        & _ & _ & _ & _ & _ & _ & _ & _ & Hi & _).
  contradiction.
Qed.

(** An update that returns leaves the counter, the configuration, the mode,
    the current state and action and the environment as they were, takes its
    batch by one call of [Sample] and keeps the replay and the generator this
    call returned.  When the counter is no multiple of the interval both
    target critics are untouched; when it is, each target block becomes the
    interpolation, at rate 0.005, of the old target block and of the block of
    its learning critic as the update has just left it. *)
Theorem Update_synchronizes_on_the_interval (st st' : AgentP) :
  Update st = Some st' ->
  totalSteps st' = totalSteps st /\ config st' = config st /\
  deterministic st' = deterministic st /\ state st' = state st /\
  action st' = action st /\ environment st' = environment st /\
  (replayMethod st', rng st') =
    (snd (fst (Sample (replayMethod st) (rng st))),
     snd (Sample (replayMethod st) (rng st))) /\
  (totalSteps st mod TargetNetworkSyncInterval (config st) <> 0 ->
   targetQ1Network st' = targetQ1Network st /\
   targetQ2Network st' = targetQ2Network st) /\
  (totalSteps st mod TargetNetworkSyncInterval (config st) = 0 ->
   interpolates (sofQ 0.005%Q) (Parameters (targetQ1Network st))
     (Parameters (learningQ1Network st')) (Parameters (targetQ1Network st')) /\
   interpolates (sofQ 0.005%Q) (Parameters (targetQ2Network st))
     (Parameters (learningQ2Network st')) (Parameters (targetQ2Network st')) /\
   layers (targetQ1Network st') = layers (targetQ1Network st) /\
   layers (targetQ2Network st') = layers (targetQ2Network st)).
Proof.
  intros Hu. pose proof Hu as Hu'.
  apply Update_trace in Hu'
    as (b & rp & w & P1 & P2 & target & g1 & g2 & tra & G & Hs & _ & _ & _ & _
        & F1 & F2 & F3 & F4 & F5 & F6 & F7 & F8 & Hi & Ht).
  rewrite Hs. cbn. repeat (split; [assumption|]).
  split; [congruence|]. split; [exact Ht|].
  intros Hm.
  apply Update_inv in Hu as (b' & rp' & w' & st1 & st2 & _ & Hc & Ha & Hg).
  apply Update_critic_learned in Hc
    as (P1' & P2' & target' & g1' & g2' & _ & Lc & _).
  apply Update_actor_learned in Ha as (tra' & G' & La & _).
  pose proof (learned_trans Lc La)
    as (L1 & L2 & _ & _ & _ & _ & _ & _ & L9 & L10 & _).
  cbn in L1, L2, L9, L10.
  apply Update_target_inv in Hg as (_ & [[Hne _]|[_ Hsoft]]).
  { rewrite L1, L2 in Hne. contradiction. }
  apply SoftUpdate_inv in Hsoft as (p1 & p2 & H1 & H2 & ->).
  cbn. cbn in H1, H2. rewrite L9 in H1. rewrite L10 in H2.
  apply soft_mix_interpolates in H1. apply soft_mix_interpolates in H2.
  rewrite L9, L10. repeat split; assumption || apply H1 || apply H2.
Qed.

(** The critic update runs both optimizer calls through the one member
    [qNetworkUpdater]: critic 1 is stepped from the state the updater had on
    entry, critic 2 from the state critic 1's step left, and that of critic
    2's step is what the agent keeps.  Each critic is stepped on the gradient
    of its own network for the loss of its own prediction; the policy and its
    updater are not touched. *)
Theorem critics_share_the_updater (b : Batch T (list T)) (st st' : AgentP) :
  Update_critic b st = Some st' ->
  exists inp target f1 o1 P1 f2 o2 P2 q1 g1 q2 g2 u1,
    nextQ st b = Some target /\
    Forward (learningQ1Network st) inp = (f1, o1) /\ as_row o1 = Some P1 /\
    Forward (learningQ2Network st) inp = (f2, o2) /\ as_row o2 = Some P2 /\
    Backward f1 inp (LossBackward P1 target) = (q1, g1) /\
    Backward f2 inp (LossBackward P2 target) = (q2, g2) /\
    UpdaterUpdate (qNetworkUpdater st) (Parameters q1)
      (StepSize (config st)) g1 = (u1, Parameters (learningQ1Network st')) /\
    UpdaterUpdate u1 (Parameters q2) (StepSize (config st)) g2 =
      (qNetworkUpdater st', Parameters (learningQ2Network st')) /\
    layers (learningQ1Network st') = layers q1 /\
    layers (learningQ2Network st') = layers q2 /\
    policyNetwork st' = policyNetwork st /\
    policyNetworkUpdater st' = policyNetworkUpdater st.
Proof.
  intros Hu. apply Update_critic_inv in Hu
    as (target & vals & inp & f1 & o1 & P1 & f2 & o2 & P2 & q1 & g1 & u1 & p1
        & q2 & g2 & u2 & p2 & Ht & _ & _ & F1 & R1 & F2 & R2 & B1 & U1 & B2
        & U2 & ->).
  exists inp, target, f1, o1, P1, f2, o2, P2, q1, g1, q2, g2, u1.
  cbn. repeat (split; [assumption || reflexivity|]). reflexivity.
Qed.

(** For one sampled state the actor update backpropagates one critic only:
    critic 1 when its prediction for the sample is below that of critic 2,
    critic 2 otherwise.  The output gradient is the negated output of the
    critic's forward pass on the policy's action joined on top of the state;
    rows 0 to (size of the action) - 1 of the result, and nothing else, go
    back through the policy.  The other critic is left as it is. *)
Theorem actor_backpropagates_one_critic (i : nat) (s pi Q1 Q2 : list T)
    (st st' : AgentP) (grad : mat T) :
  Update_actor_sample i s pi Q1 Q2 st = Some (grad, st') ->
  exists q1 q2 pol o singlePi n q n' gradQ pol',
    nth_error Q1 i = Some q1 /\ nth_error Q2 i = Some q2 /\
    Forward (policyNetwork st) [s] = (pol, o) /\
    as_col o = Some singlePi /\
    Forward (learningQNetwork (if sltb q1 q2 then Critic1 else Critic2) st)
      [singlePi ++ s] = (n, q) /\
    Backward n [singlePi ++ s] (mat_neg q) = (n', gradQ) /\
    1 <= length singlePi <= n_rows gradQ /\
    Backward pol [s] (map (firstn (length singlePi)) gradQ) = (pol', grad) /\
    policyNetwork st' = pol' /\
    learningQNetwork (if sltb q1 q2 then Critic1 else Critic2) st' = n' /\
    learningQNetwork
      (other_critic (if sltb q1 q2 then Critic1 else Critic2)) st' =
    learningQNetwork
      (other_critic (if sltb q1 q2 then Critic1 else Critic2)) st /\
    calls st' =
      calls st ++
        [CallActorBackward (if sltb q1 q2 then Critic1 else Critic2)
           (singlePi ++ s) (mat_neg q)].
Proof.
  intros Hu. apply Update_actor_sample_inv in Hu
    as (p & pol & o & singlePi & q1 & q2 & n & q & n' & gradQ & gradPolicy
        & pol' & _ & Fp & Hc & H1 & H2 & Fq & Bq & Hr & Bp & ->).
  exists q1, q2, pol, o, singlePi, n, q, n', gradQ, pol'.
  unfold rows_0 in Hr.
  destruct (Nat.leb_spec 1 (length singlePi)) as [Hlo|]; [|discriminate].
  destruct (Nat.leb_spec (length singlePi) (n_rows gradQ)) as [Hhi|];
    [|discriminate].
  cbn in Hr. some_inv Hr.
  repeat (split; [assumption || reflexivity|]).
  split; [lia|]. split; [exact Bp|].
  destruct (sltb q1 q2); cbn; repeat split.
Qed.

(** The actor update makes one backward pass per sampled state and then one
    optimizer call on the policy, through [policyNetworkUpdater].  The
    gradient of this call has, in every entry, the sum from 0.0, in the order
    of the samples, of the entries of the per-sample gradients: no division
    by the number of samples.  The updater of the critics is not used. *)
Theorem policy_gradient_is_a_sum (b : Batch T (list T)) (st st' : AgentP) :
  Update_actor b st = Some st' ->
  exists pi qInput Q1 Q2 grads st1 G tr,
    as_row (Predict (policyNetwork st) (sampledStates b)) = Some pi /\
    join_vert (row_mat pi) (sampledStates b) = Some qInput /\
    as_row (Predict (learningQ1Network st) qInput) = Some Q1 /\
    as_row (Predict (learningQ2Network st) qInput) = Some Q2 /\
    Update_actor_grads (sampledStates b) 0 pi Q1 Q2 st = Some (grads, st1) /\
    length grads = n_cols (sampledStates b) /\
    (forall r c v, entry G r c = Some v ->
       exists es, mapM (fun g : mat T => entry g r c) grads = Some es /\
                  v = fold_left sadd es (sofQ 0%Q)) /\
    (grads = [] -> G = []) /\
    UpdaterUpdate (policyNetworkUpdater st) (Parameters (policyNetwork st1))
      (StepSize (config st)) G =
      (policyNetworkUpdater st', Parameters (policyNetwork st')) /\
    qNetworkUpdater st' = qNetworkUpdater st /\
    calls st' = calls st ++ tr ++ [CallPolicyStep (StepSize (config st)) G] /\
    forallb actor_backward_event tr = true /\
    length tr = n_cols (sampledStates b).
Proof.
  intros Hu. apply Update_actor_inv in Hu
    as (pi & qInput & Q1 & Q2 & G & st1 & u & p & Hpi & Hq & H1 & H2 & Hl & Hup
        & ->).
  apply Update_actor_loop_grads in Hl as (grads & Hg & Hacc).
  pose proof Hg as Hg'.
  apply Update_actor_grads_learned in Hg'
    as (tr & L & F & N & Uq & Up & Len).
  destruct L as (L1 & _ & _ & _ & _ & _ & _ & _ & _ & _ & L11).
  rewrite L1, Up in Hup.
  exists pi, qInput, Q1, Q2, grads, st1, G, tr. cbn.
  repeat (split; [assumption|]).
  split; [intros r c v Hv; eapply accumulate_all_entry; eassumption|].
  split; [intros ->; cbn in Hacc; congruence|].
  rewrite Hup, L1, L11, <- app_assoc. repeat split; assumption.
Qed.


(** In deterministic mode [SelectAction] writes component 0 of the policy's
    output for the encoded current state into component 0 of the action,
    keeps the other components, draws nothing from the generator and changes
    nothing else; a second call gives the same agent again. *)
Theorem SelectAction_deterministic (st st' : AgentP) :
  deterministic st = true -> SelectAction st = Some st' ->
  (exists out a0,
      as_row (Predict (policyNetwork st) [Encode (state st)]) = Some out /\
      nth_error out 0 = Some a0 /\
      action st' = a0 :: tl (action st)) /\
  set_action (action st) st' = st /\
  SelectAction st' = Some st'.
Proof.
  intros Hd Hs. pose proof Hs as Hs'.
  apply SelectAction_deterministic_inv in Hs'
    as (out & a0 & h & t & Ho & Ha & Hx & ->); [|exact Hd].
  split; [|split].
  - exists out, a0. rewrite Hx. repeat split; assumption.
  - destruct st. reflexivity.
  - unfold SelectAction. cbn. rewrite Hd, Ho. cbn.
    destruct out as [|x out]; [discriminate|]. cbn in Ha. some_inv Ha.
    reflexivity.
Qed.

(** Otherwise the policy's output must be a single scalar; exactly one value
    [u] is drawn, and component 0 of the action becomes the output plus
    [u * 0.1] clamped to [-0.25, 0.25]: the noise is clamped, not the action.
    The other components and all other members stay. *)
Theorem SelectAction_explores_with_clamped_noise (st st' : AgentP) :
  deterministic st = false -> SelectAction st = Some st' ->
  exists o u,
    as_row (Predict (policyNetwork st) [Encode (state st)]) = Some [o] /\
    randu1 (rng st) = (u, rng st') /\
    action st' =
      sadd o (clamp (sneg (sofQ 0.25%Q)) (sofQ 0.25%Q) (smul u (sofQ 0.1%Q)))
      :: tl (action st) /\
    set_rng (rng st) (set_action (action st) st') = st.
Proof.
  intros Hd Hs.
  apply SelectAction_exploring_inv in Hs
    as (o & u & w & h & t & Ho & Hr & Hx & ->); [|exact Hd].
  exists o, u. cbn. rewrite Hx. cbn.
  repeat (split; [assumption || reflexivity|]).
  rewrite <- Hx. destruct st. reflexivity.
Qed.


Lemma step_calls_length discount (xs : list (Step T St)) :
  length (flat_map (step_calls (T:=T) discount) xs) = 2 * length xs.
Proof.
  induction xs as [|[[[[s a] r] s'] t] xs IH]; [reflexivity|].
  cbn [flat_map step_calls length app]. rewrite IH. lia.
Qed.

(** When the initial state is terminal, [Episode] returns 0.0 at once: no
    action is selected, nothing is stored or learned and no step is
    counted. *)
Theorem Episode_returns_at_once_from_a_terminal_start (fuel : nat)
    (st : AgentP) (s0 : St) (env : E) (w : W) :
  InitialSample (environment st) (rng st) = (s0, env, w) ->
  IsTerminal env s0 = true ->
  Episode (S fuel) st =
    Done (set_state s0 (set_rng w (set_environment env st)), sofQ 0%Q).
Proof.
  intros Hi Ht. unfold Episode. rewrite Hi. cbn. rewrite Ht. reflexivity.
Qed.

(** With a step limit L > 0 and an environment that has no terminal state,
    an episode needs no more than L + 1 evaluations of its loop condition; if
    no call faults it returns after exactly L environment steps, with the sum
    of the L rewards, added from 0.0 in the order received, and the lifetime
    counter advanced by L. *)
Theorem Episode_runs_to_the_step_limit (fuel : nat) (st : AgentP) :
  StepLimit (config st) <> 0 ->
  (forall e s, IsTerminal e s = false) ->
  StepLimit (config st) < fuel ->
  Episode fuel st <> OutOfFuel /\
  forall st' ret, Episode fuel st = Done (st', ret) ->
    exists tr,
      calls st' = calls st ++ tr /\
      length (rewards_of tr) = StepLimit (config st) /\
      ret = fold_left sadd (rewards_of tr) (sofQ 0%Q) /\
      totalSteps st' = totalSteps st + StepLimit (config st).
Proof.
  intros Hnz Hnever Hfuel.
  destruct (Episode_eq fuel st) as (s0 & env & w & _ & ->).
  split.
  - apply Episode_loop_fuel; cbn; lia || assumption.
  - intros st' ret Hd.
    apply Episode_loop_summary in Hd
      as (n & tr & Hc & Hts & Hcf & _ & Hr & -> & _ & _ & _ & Hexit & Hbound).
    cbn in Hc, Hts, Hcf, Hexit, Hbound.
    destruct Hexit as [Hterm|[_ Hge]]; [rewrite Hnever in Hterm; discriminate|].
    assert (n = StepLimit (config st)) as Hn
      by (specialize (Hbound (Nat.le_0_l _) Hnz); lia).
    exists tr. repeat split; congruence.
Qed.

(** Without a step limit an episode returns only in a terminal state: the
    loop has no other exit. *)
Theorem Episode_without_limit_ends_in_a_terminal_state (fuel : nat)
    (st st' : AgentP) (ret : T) :
  StepLimit (config st) = 0 ->
  Episode fuel st = Done (st', ret) ->
  IsTerminal (environment st') (state st') = true.
Proof.
  intros Hz. destruct (Episode_eq fuel st) as (s0 & env & w & _ & ->).
  intros Hd.
  apply Episode_loop_summary in Hd
    as (n & tr & _ & _ & _ & _ & _ & _ & _ & _ & _ & Hexit & _).
  cbn in Hexit. destruct Hexit as [Ht|[Hnz _]]; [exact Ht|contradiction].
Qed.

(** The lifetime counter goes up by one per environment step and an episode
    does not reset it.  In deterministic mode no update is made; otherwise
    [Update] is entered once at every step whose counter value, after the
    increment, has reached the exploration threshold, and at no other. *)
Theorem Episode_learns_once_the_threshold_is_reached (fuel : nat)
    (st st' : AgentP) (ret : T) :
  Episode fuel st = Done (st', ret) ->
  exists tr,
    calls st' = calls st ++ tr /\
    totalSteps st' = totalSteps st + length (rewards_of tr) /\
    config st' = config st /\ deterministic st' = deterministic st /\
    updates_of tr =
      if deterministic st then []
      else filter (fun k => ExplorationSteps (config st) <=? k)
             (seq (S (totalSteps st)) (length (rewards_of tr))).
Proof.
  destruct (Episode_eq fuel st) as (s0 & env & w & _ & ->). intros Hd.
  apply Episode_loop_summary in Hd
    as (n & tr & Hc & Hts & Hcf & Hdet & Hr & _ & _ & Hu & _).
  cbn in Hc, Hts, Hcf, Hdet, Hu. exists tr. rewrite Hr.
  repeat split; assumption.
Qed.

(** Every environment step is followed by one [Store] of what the step saw:
    the state before the step, the action taken, the reward and the state
    the environment returned, the environment's terminal test of that state
    and the configured discount.  The stored steps form a path from the
    initial state to the state the episode ends in, and every stored flag but
    the last is [false]. *)
Theorem Episode_stores_every_step (fuel : nat) (st st' : AgentP) (ret : T) :
  Episode fuel st = Done (st', ret) ->
  exists tr xs,
    calls st' = calls st ++ tr /\
    filter interaction tr = flat_map (step_calls (Discount (config st))) xs /\
    length xs = length (rewards_of tr) /\
    chained (fst (fst (InitialSample (environment st) (rng st)))) xs /\
    state st' =
      fold_left (fun _ x => step_next x) xs
        (fst (fst (InitialSample (environment st) (rng st)))) /\
    terminal_flags (IsTerminal (environment st') (state st')) xs.
Proof.
  destruct (Episode_eq fuel st) as (s0 & env & w & Hi & ->). intros Hd.
  rewrite Hi. cbn [fst].
  pose proof Hd as Hd'.
  apply Episode_loop_summary in Hd'
    as (n & tr' & Hc' & _ & _ & _ & Hr & _ & Hlen & _).
  apply Episode_loop_interactions in Hd
    as (tr & xs & Hc & Hf & Hch & Hfin & Hfl & _).
  rewrite Hc in Hc'. apply app_inv_head in Hc'. subst tr'.
  cbn in Hc, Hf, Hch, Hfin.
  exists tr, xs. repeat (split; [assumption|]).
  split; [|repeat split; assumption].
  rewrite Hf, step_calls_length in Hlen. lia.
Qed.

(** During an episode a soft update is made at the updates entered with a
    counter value that is a multiple of the synchronization interval, always
    at rate 0.005, and at no other point; an episode without soft update
    leaves both target critics exactly as they were. *)
Theorem Episode_moves_targets_by_soft_updates_only (fuel : nat)
    (st st' : AgentP) (ret : T) :
  Episode fuel st = Done (st', ret) ->
  exists tr,
    calls st' = calls st ++ tr /\
    soft_updates_of tr =
      map (fun _ => sofQ 0.005%Q)
        (filter (fun k => k mod TargetNetworkSyncInterval (config st) =? 0)
           (updates_of tr)) /\
    (soft_updates_of tr = [] ->
     targetQ1Network st' = targetQ1Network st /\
     targetQ2Network st' = targetQ2Network st).
Proof.
  destruct (Episode_eq fuel st) as (s0 & env & w & _ & ->). intros Hd.
  pose proof Hd as Hd'.
  apply Episode_loop_summary in Hd'
    as (n & tr' & Hc' & _ & _ & _ & _ & _ & _ & _ & Hs & _).
  apply Episode_loop_targets in Hd as (tr & Hc & Ht & _).
  rewrite Hc in Hc'. apply app_inv_head in Hc'. subst tr'.
  cbn in Hc, Hs, Ht. exists tr. repeat split; try assumption; apply Ht;
    assumption.
Qed.

(** An episode in deterministic mode only acts and stores: it enters no
    update and leaves the critics, the targets, the policy and both updaters
    as they were. *)
Theorem Episode_in_deterministic_mode_learns_nothing (fuel : nat)
    (st st' : AgentP) (ret : T) :
  deterministic st = true ->
  Episode fuel st = Done (st', ret) ->
  learningQ1Network st' = learningQ1Network st /\
  learningQ2Network st' = learningQ2Network st /\
  policyNetwork st' = policyNetwork st /\
  qNetworkUpdater st' = qNetworkUpdater st /\
  policyNetworkUpdater st' = policyNetworkUpdater st /\
  targetQ1Network st' = targetQ1Network st /\
  targetQ2Network st' = targetQ2Network st /\
  exists tr, calls st' = calls st ++ tr /\ updates_of tr = [] /\
             soft_updates_of tr = [].
Proof.
  intros Hdet. destruct (Episode_eq fuel st) as (s0 & env & w & _ & ->).
  intros Hd. pose proof Hd as Hd'.
  apply Episode_loop_summary in Hd'
    as (n & tr' & Hc' & _ & _ & _ & _ & _ & _ & Hu & Hs & _).
  apply Episode_loop_targets in Hd as (tr & Hc & _ & Hn).
  rewrite Hc in Hc'. apply app_inv_head in Hc'. subst tr'.
  cbn in Hc, Hu, Hs, Hn. rewrite Hdet in Hu.
  destruct (Hn Hdet) as (N1 & N2 & N3 & N4 & N5 & N6 & N7).
  repeat (split; [assumption|]).
  exists tr. rewrite Hs, Hu. repeat split; assumption.
Qed.

(** The constructor keeps a critic 1 and a policy that come with
    parameters and resets them only when they have none; critic 2 is the
    copy of critic 1 with its parameters reset, in every case; the updater of
    the critics is initialized once, with the size of critic 1's block, and
    that of the policy with the size of the policy's block.  The agent
    starts in exploring mode. *)
Theorem constructor_resets_what_is_empty (cfg : TrainingConfig T)
    (q1 : Net T QL) (pol : Net T PL) (rp : R) (qu pu : U) (env : E) (w : W) :
  let a : AgentP := SAC_new cfg q1 pol rp qu pu env w in
  (exists w1,
      (learningQ1Network a, w1) =
        (if is_empty (Parameters q1) then ResetParameters q1 w else (q1, w)) /\
      learningQ2Network a = fst (ResetParameters (learningQ1Network a) w1) /\
      (policyNetwork a, rng a) =
        (if is_empty (Parameters pol)
         then ResetParameters pol (snd (ResetParameters (learningQ1Network a) w1))
         else (pol, snd (ResetParameters (learningQ1Network a) w1)))) /\
  qNetworkUpdater a =
    Initialize qu (n_rows (Parameters (learningQ1Network a)))
      (n_cols (Parameters (learningQ1Network a))) /\
  policyNetworkUpdater a =
    Initialize pu (n_rows (Parameters (policyNetwork a)))
      (n_cols (Parameters (policyNetwork a))) /\
  deterministic a = false /\ config a = cfg /\ replayMethod a = rp /\
  environment a = env.
Proof.
  intros a. subst a. unfold SAC_new.
  destruct (if is_empty (Parameters q1) then ResetParameters q1 w else (q1, w))
    as [q1' w1] eqn:H1.
  destruct (ResetParameters q1' w1) as [q2' w2] eqn:H2.
  destruct (if is_empty (Parameters pol) then ResetParameters pol w2
            else (pol, w2)) as [pol' w3] eqn:H3.
  cbn. split; [|repeat split].
  exists w1. rewrite H2. cbn. rewrite H3. repeat split.
Qed.
End Properties.

(** ** The properties on concrete agents *)

(** The batch the agent [Toy.learner] samples: its one stored transition. *)
Definition learner_batch : Batch Q (list Q) :=
  fst (fst (Sample (replayMethod (Toy.learner 2)) (rng (Toy.learner 2)))).


Lemma Update_faults_without_sync_interval_witness :
  Update (Toy.learner 0) = None.
Proof.
  apply Update_faults_without_sync_interval. reflexivity.
Defined.

Lemma Update_synchronizes_on_the_interval_witness :
  exists st',
    Update (Toy.learner 2) = Some st' /\
    targetQ1Network st' = targetQ1Network (Toy.learner 2) /\
    targetQ2Network st' = targetQ2Network (Toy.learner 2).
Proof.
  assert (exists st', Update (Toy.learner 2) = Some st') as [st' Hu]
    by (eexists; vm_compute; reflexivity).
  exists st'. split; [exact Hu|].
  apply Update_synchronizes_on_the_interval in Hu
    as (_ & _ & _ & _ & _ & _ & _ & Hkeep & _).
  apply Hkeep. vm_compute. discriminate.
Defined.

Lemma critics_share_the_updater_witness :
  exists st',
    Update_critic learner_batch (Toy.learner 2) = Some st' /\
    policyNetworkUpdater st' = policyNetworkUpdater (Toy.learner 2).
Proof.
  assert (exists st', Update_critic learner_batch (Toy.learner 2) = Some st')
    as [st' Hu] by (eexists; vm_compute; reflexivity).
  exists st'. split; [exact Hu|].
  apply critics_share_the_updater in Hu
    as (inp & target & f1 & o1 & P1 & f2 & o2 & P2 & q1 & g1 & q2 & g2 & u1
        & _ & _ & _ & _ & _ & _ & _ & _ & _ & _ & _ & _ & Hp).
  exact Hp.
Defined.

Lemma actor_backpropagates_one_critic_witness :
  exists grad st',
    Update_actor_sample 0 [1%Q] [(1 # 2)%Q] [1%Q] [2%Q] (Toy.learner 2)
      = Some (grad, st') /\
    calls st' =
      [CallActorBackward Critic1 [(1 # 2)%Q; 1%Q] [[(-11 # 20)%Q]]].
Proof.
  assert (exists r, Update_actor_sample 0 [1%Q] [(1 # 2)%Q] [1%Q] [2%Q]
                      (Toy.learner 2) = Some r)
    as [[grad st'] Hu] by (eexists; vm_compute; reflexivity).
  exists grad, st'. split; [exact Hu|].
  pose proof Hu as Hc.
  apply actor_backpropagates_one_critic in Hc
    as (q1 & q2 & pol & o & singlePi & n & q & n' & gradQ & pol' & H1 & H2
        & Hf & Hcol & Hq & _ & _ & _ & _ & _ & _ & Hc).
  vm_compute in H1, H2, Hf, Hcol. some_inv H1. some_inv H2.
  injection Hf as <- <-. some_inv Hcol.
  vm_compute in Hq. injection Hq as <- <-. exact Hc.
Defined.

Lemma policy_gradient_is_a_sum_witness :
  exists st' G,
    Update_actor learner_batch (Toy.learner 2) = Some st' /\
    policy_steps_of (calls st') = [((1 # 10)%Q, G)].
Proof.
  assert (exists st', Update_actor learner_batch (Toy.learner 2) = Some st')
    as [st' Hu] by (eexists; vm_compute; reflexivity).
  pose proof Hu as Hc.
  apply policy_gradient_is_a_sum in Hc
    as (pi & qInput & Q1 & Q2 & grads & st1 & G & tr & _ & _ & _ & _ & _ & _
        & _ & _ & _ & _ & Hc & Hf & _).
  exists st', G. split; [exact Hu|].
  rewrite Hc. cbn [calls Toy.learner]. unfold policy_steps_of.
  rewrite !flat_map_app.
  apply actor_backward_events_only in Hf as (_ & _ & _ & _ & Hp & _).
  unfold policy_steps_of in Hp. rewrite Hp. reflexivity.
Defined.


Lemma SelectAction_deterministic_witness :
  exists st',
    SelectAction Toy.evaluator = Some st' /\ SelectAction st' = Some st'.
Proof.
  assert (exists st', SelectAction Toy.evaluator = Some st') as [st' Hs]
    by (eexists; vm_compute; reflexivity).
  exists st'. split; [exact Hs|].
  apply SelectAction_deterministic in Hs as (_ & _ & Hi);
    [exact Hi|reflexivity].
Defined.

Lemma SelectAction_explores_with_clamped_noise_witness :
  exists st',
    SelectAction (Toy.agent 3 1 2) = Some st' /\
    action st' = [(7 # 100)%Q] /\ rng st' = 8.
Proof.
  assert (exists st', SelectAction (Toy.agent 3 1 2) = Some st') as [st' Hs]
    by (eexists; vm_compute; reflexivity).
  exists st'. split; [exact Hs|].
  apply SelectAction_explores_with_clamped_noise in Hs
    as (o & u & Ho & Hr & Ha & _); [|reflexivity].
  vm_compute in Ho. injection Ho as <-.
  vm_compute in Hr. injection Hr as <- Hw.
  split; [rewrite Ha; vm_compute; reflexivity|symmetry; exact Hw].
Defined.


Lemma Episode_returns_at_once_from_a_terminal_start_witness :
  exists st',
    Episode 5 (Toy.agent_h 0 0 1 1) = Done (st', 0%Q) /\
    calls st' = [] /\ totalSteps st' = 0.
Proof.
  eexists. split; [|split].
  - eapply Episode_returns_at_once_from_a_terminal_start; reflexivity.
  - reflexivity.
  - reflexivity.
Defined.

Lemma Episode_runs_to_the_step_limit_witness :
  Episode 10 (Toy.agent 3 1 2) <> OutOfFuel /\
  exists st' ret tr,
    Episode 10 (Toy.agent 3 1 2) = Done (st', ret) /\
    calls st' = tr /\ length (rewards_of tr) = 3 /\ totalSteps st' = 3.
Proof.
  assert (StepLimit (config (Toy.agent 3 1 2)) <> 0) as Hnz
    by (vm_compute; discriminate).
  assert (forall (e : unit) (s : Q), IsTerminal e s = false) as Hnever
    by (intros; reflexivity).
  assert (StepLimit (config (Toy.agent 3 1 2)) < 10) as Hfuel
    by (vm_compute; repeat constructor).
  destruct (Episode_runs_to_the_step_limit (Toy.agent 3 1 2) Hnz Hnever Hfuel)
    as [Hout Hdone].
  split; [exact Hout|].
  assert (exists r, Episode 10 (Toy.agent 3 1 2) = Done r) as [[st' ret] He]
    by (eexists; vm_compute; reflexivity).
  destruct (Hdone st' ret He) as (tr & Hc & Hr & _ & Hts).
  exists st', ret, tr. split; [exact He|]. repeat split; assumption.
Defined.

Lemma Episode_without_limit_ends_in_a_terminal_state_witness :
  exists st' ret,
    Episode 10 (Toy.agent_h 2 0 1 1) = Done (st', ret) /\
    IsTerminal (environment st') (state st') = true.
Proof.
  assert (exists r, Episode 10 (Toy.agent_h 2 0 1 1) = Done r)
    as [[st' ret] He] by (eexists; vm_compute; reflexivity).
  exists st', ret. split; [exact He|].
  apply Episode_without_limit_ends_in_a_terminal_state in He;
    [exact He|reflexivity].
Defined.

(** Runs of the small agents, by evaluation. *)
Lemma run_with_threshold_2 :
  exists st' ret,
    Episode 10 (Toy.agent 3 2 2) = Done (st', ret) /\
    length (rewards_of (calls st')) = 3.
Proof.
  eexists. eexists. split; vm_compute; reflexivity.
Qed.

Lemma run_to_the_horizon :
  exists st' ret,
    Episode 10 (Toy.agent_h 2 0 1 1) = Done (st', ret) /\
    IsTerminal (environment st') (state st') = true.
Proof.
  eexists. eexists. split; vm_compute; reflexivity.
Qed.

Lemma Episode_learns_once_the_threshold_is_reached_witness :
  exists st' ret tr,
    Episode 10 (Toy.agent 3 2 2) = Done (st', ret) /\
    calls st' = tr /\ totalSteps st' = 3 /\ updates_of tr = [2; 3].
Proof.
  destruct run_with_threshold_2 as (st' & ret & He & Hn).
  pose proof He as Hc.
  apply Episode_learns_once_the_threshold_is_reached in Hc
    as (tr & Hc & Hts & _ & _ & Hu).
  change (calls (Toy.agent 3 2 2)) with (@nil (Event Q Q)) in Hc.
  cbn [app] in Hc. rewrite Hc in Hn. rewrite Hn in Hts, Hu.
  exists st', ret, tr. split; [exact He|]. repeat split; assumption.
Defined.

Lemma Episode_stores_every_step_witness :
  exists st' ret tr xs,
    Episode 10 (Toy.agent_h 2 0 1 1) = Done (st', ret) /\
    calls st' = tr /\
    filter interaction tr = flat_map (step_calls (9 # 10)%Q) xs /\
    terminal_flags true xs.
Proof.
  destruct run_to_the_horizon as (st' & ret & He & Ht).
  pose proof He as Hc.
  apply Episode_stores_every_step in Hc
    as (tr & xs & Hc & Hf & _ & _ & _ & Hfl).
  rewrite Ht in Hfl.
  exists st', ret, tr, xs. split; [exact He|]. repeat split; assumption.
Defined.

Lemma Episode_moves_targets_by_soft_updates_only_witness :
  exists st' ret,
    Episode 10 (Toy.agent 3 4 2) = Done (st', ret) /\
    targetQ1Network st' = targetQ1Network (Toy.agent 3 4 2) /\
    targetQ2Network st' = targetQ2Network (Toy.agent 3 4 2).
Proof.
  assert (exists st' ret,
             Episode 10 (Toy.agent 3 4 2) = Done (st', ret) /\
             soft_updates_of (calls st') = [])
    as (st' & ret & He & Hs)
    by (eexists; eexists; split; vm_compute; reflexivity).
  exists st', ret. split; [exact He|].
  apply Episode_moves_targets_by_soft_updates_only in He
    as (tr & Hc & _ & Hkeep).
  change (calls (Toy.agent 3 4 2)) with (@nil (Event Q Q)) in Hc.
  cbn [app] in Hc. rewrite Hc in Hs. exact (Hkeep Hs).
Defined.

Lemma Episode_in_deterministic_mode_learns_nothing_witness :
  exists st' ret,
    Episode 10 Toy.evaluator = Done (st', ret) /\
    policyNetwork st' = policyNetwork Toy.evaluator /\
    learningQ1Network st' = learningQ1Network Toy.evaluator.
Proof.
  assert (exists r, Episode 10 Toy.evaluator = Done r) as [[st' ret] He]
    by (eexists; vm_compute; reflexivity).
  exists st', ret. split; [exact He|].
  apply Episode_in_deterministic_mode_learns_nothing in He
    as (H1 & _ & H3 & _); [|reflexivity].
  split; assumption.
Defined.

(** ** Exploration noise over exact rationals *)

(** For a draw [u] of [arma::randu], which lies in [0, 1], the noise
    [u * 0.1] lies in [0, 0.1]: the clamp to [-0.25, 0.25] never changes it,
    and the exploring action is never below the policy's output. *)
Theorem exploration_noise_is_never_negative (u : Q) :
  (0 <= u)%Q -> (u <= 1)%Q ->
  clamp (sneg (sofQ 0.25%Q)) (sofQ 0.25%Q) (smul u (sofQ 0.1%Q)) =
    smul u (sofQ 0.1%Q) /\
  (0 <= smul u (sofQ 0.1%Q))%Q /\ (smul u (sofQ 0.1%Q) <= 1 # 10)%Q.
Proof.
  intros H0 H1.
  assert (smul u (sofQ 0.1%Q) == u * (1 # 10))%Q as Hn.
  { cbn [smul sofQ Q_Scalar]. rewrite Qred_correct.
    apply Qmult_comp; [reflexivity|]. apply Qred_correct. }
  assert (0 <= smul u (sofQ 0.1%Q))%Q as Hlo by (rewrite Hn; lra).
  assert (smul u (sofQ 0.1%Q) <= 1 # 10)%Q as Hhi by (rewrite Hn; lra).
  split; [|split; assumption].
  unfold clamp. cbn [sltb Q_Scalar].
  assert (Qle_bool (sneg (sofQ 0.25%Q)) (smul u (sofQ 0.1%Q)) = true) as ->.
  { apply Qle_bool_iff.
    apply Qle_trans with 0%Q; [vm_compute; discriminate|exact Hlo]. }
  assert (Qle_bool (smul u (sofQ 0.1%Q)) (sofQ 0.25%Q) = true) as ->.
  { apply Qle_bool_iff.
    apply Qle_trans with (1 # 10)%Q; [exact Hhi|vm_compute; discriminate]. }
  reflexivity.
Qed.

Lemma exploration_noise_is_never_negative_witness :
  clamp (sneg (sofQ 0.25%Q)) (sofQ 0.25%Q) (smul (1 # 2)%Q (sofQ 0.1%Q)) =
    (1 # 20)%Q.
Proof.
  assert (0 <= 1 # 2)%Q as H0 by (vm_compute; discriminate).
  assert (1 # 2 <= 1)%Q as H1 by (vm_compute; discriminate).
  destruct (exploration_noise_is_never_negative H0 H1) as (Hc & _).
  rewrite Hc. reflexivity.
Defined.
